(** * EbmInternal.h: overflow-safe arithmetic, bit-pack geometry,
      task descriptors and the loss-name tokenizer

    A shallow embedding of [src/shared/ebm_native/EbmInternal.h] and the
    properties its specification states about it.

    Conventions of the embedding.
    - [size_t] is an unsigned integer of [size_bits] bits, [ptrdiff_t] the
      signed integer of the same width.  Values are carried as [Z]; every
      unsigned operation that can wrap has its [mod 2 ^ size_bits] written
      out ([wrap_size]).  The width is a field of the class [Platform], so
      that every result holds for the 32 bit and the 64 bit builds alike.
    - C++ division truncates towards zero: [Z.quot] on signed operands,
      [Z.div] on unsigned ones (where both agree).
    - A pointer into a NUL terminated string is the suffix it points to.
    - [option] marks a result that may be missing: a null pointer, or a
      comparison whose operand conversion would not preserve the value. *)

From Stdlib Require Import ZArith Lia Bool List Ascii String Sorted.
From Equations Require Import Equations.
Import ListNotations.

Local Open Scope Z_scope.

(* ===================================================================== *)
(** * Part I: the embedding                                               *)
(* ===================================================================== *)

(** ** The platform: width of [size_t] and [ptrdiff_t] *)

(** The C standard guarantees [SIZE_MAX >= 65535], hence at least 16 bits. *)
Class Platform : Type := {
  size_bits : Z;
  size_bits_min : 16 <= size_bits
}.

#[local] Obligation Tactic := idtac.

#[export] Program Instance LP64 : Platform := {| size_bits := 64 |}.
Next Obligation. lia. Defined.

#[export] Program Instance ILP32 : Platform := {| size_bits := 32 |}.
Next Obligation. lia. Defined.

Section SizeT.
Context {P : Platform}.

(** [std::numeric_limits<size_t>::max()] *)
Definition SIZE_MAX : Z := 2 ^ size_bits - 1.

(** [std::numeric_limits<ptrdiff_t>::lowest()] and [max()] *)
Definition PTRDIFF_MIN : Z := - 2 ^ (size_bits - 1).
Definition PTRDIFF_MAX : Z := 2 ^ (size_bits - 1) - 1.

(** Reduction of an exact result to the [size_t] it is stored in. *)
Definition wrap_size (z : Z) : Z := z mod 2 ^ size_bits.

Definition is_size_t (z : Z) : Prop := 0 <= z <= SIZE_MAX.
Definition is_ptrdiff_t (z : Z) : Prop := PTRDIFF_MIN <= z <= PTRDIFF_MAX.

(** ** Overflow checks (EbmInternal.h, lines 486-501) *)

(** [return 0 != num1 &&
      ((std::numeric_limits<size_t>::max() - num1 + 1) / num1 < num2);]
    [&&] does not evaluate its right operand when [num1] is zero; [andb]
    on a total division is the same function. *)
Definition IsMultiplyError (num1 num2 : Z) : bool :=
  negb (0 =? num1) &&
  (wrap_size (wrap_size (SIZE_MAX - num1) + 1) / num1 <? num2).

(** [return num1 + num2 < num1;] *)
Definition IsAddError (num1 num2 : Z) : bool :=
  wrap_size (num1 + num2) <? num1.

(** ** CountBitsRequired (lines 395-405, 431) *)

(** [return T { 0 } == maxValue ? size_t { 0 } :
       size_t { 1 } + CountBitsRequired<T>(maxValue / T { 2 });] *)
Equations? CountBitsRequired (maxValue : Z) : Z
  by wf (N.size_nat (Z.abs_N maxValue)) lt :=
  CountBitsRequired maxValue with Z.eq_dec 0 maxValue => {
    | left _ := 0;
    | right _ := wrap_size (1 + CountBitsRequired (Z.quot maxValue 2)) }.
Proof.
  rewrite <- Zquot2_quot.
  destruct maxValue as [|[p|p|]|[p|p|]]; simpl; try lia; congruence.
Qed.

(** The call relation of the recursion: [y] is the argument of the call
    made on argument [x]. *)
Definition halving_call (y x : Z) : Prop := x <> 0 /\ y = Z.quot x 2.

(** [CountBitsRequiredPositiveMax<size_t>()] *)
Definition CountBitsRequiredPositiveMax_size_t : Z := CountBitsRequired SIZE_MAX.

Definition k_cBitsForSizeT : Z := CountBitsRequiredPositiveMax_size_t.
Definition k_cDimensionsMax : Z := wrap_size (k_cBitsForSizeT - 1).

(** [StorageDataType] is [size_t]. *)
Definition k_cBitsForStorageType : Z := CountBitsRequiredPositiveMax_size_t.

(** ** Bit-pack geometry (lines 433-479) *)

(** [return k_cBitsForStorageType / cItemsBitPacked;]
    The source divides by zero when [cItemsBitPacked] is zero; the
    properties below only use it on positive arguments. *)
Definition GetCountBits (cItemsBitPacked : Z) : Z :=
  k_cBitsForStorageType / cItemsBitPacked.

Definition k_cItemsPerBitPackDynamic : Z := 0.
Definition k_cItemsPerBitPackMax : Z := 0.
Definition k_cItemsPerBitPackMin : Z := 0.

(** [return k_cItemsPerBitPackMin == cItemsBitPackedPrev ?
       k_cItemsPerBitPackDynamic :
       k_cBitsForStorageType / ((k_cBitsForStorageType / cItemsBitPackedPrev) + 1);]
    on [size_t]. *)
Definition GetNextCountItemsBitPacked (cItemsBitPackedPrev : Z) : Z :=
  if k_cItemsPerBitPackMin =? cItemsBitPackedPrev
  then k_cItemsPerBitPackDynamic
  else k_cBitsForStorageType /
       wrap_size (k_cBitsForStorageType / cItemsBitPackedPrev + 1).

Definition k_cItemsPerBitPackNone : Z := -1.
Definition k_cItemsPerBitPackDynamic2 : Z := 0.
Definition k_cItemsPerBitPackMax2 : Z := k_cBitsForStorageType.
Definition k_cItemsPerBitPackMin2 : Z := 1.

Definition k_cItemsPerBitPackLast : Z :=
  if (k_cBitsForStorageType =? k_cItemsPerBitPackMax2) &&
     (1 =? k_cItemsPerBitPackMin2)
  then 1 else k_cItemsPerBitPackDynamic2.

(** [return k_cItemsPerBitPackMin2 == cItemsBitPackedPrev ?
       k_cItemsPerBitPackDynamic2 :
       ptrdiff_t { k_cBitsForStorageType } /
         ((ptrdiff_t { k_cBitsForStorageType } / cItemsBitPackedPrev) + 1);]
    on [ptrdiff_t], hence truncating division.  The source never passes
    the values 0 and -1 (see its comment). *)
Definition GetNextBitPack (cItemsBitPackedPrev : Z) : Z :=
  if k_cItemsPerBitPackMin2 =? cItemsBitPackedPrev
  then k_cItemsPerBitPackDynamic2
  else Z.quot k_cBitsForStorageType
         (Z.quot k_cBitsForStorageType cItemsBitPackedPrev + 1).

(** The progression a caller walks: start at [cItems], apply [next] until
    the dynamic sentinel 0 comes back.  [fuel] bounds the number of steps;
    [BitPackChain_fuel] shows when the bound is not hit. *)
Fixpoint BitPackChain (next : Z -> Z) (fuel : nat) (cItems : Z) : list Z :=
  match fuel with
  | O => []
  | S fuel' =>
      if cItems =? 0 then []
      else cItems :: BitPackChain next fuel' (next cItems)
  end.

(** [v] is a value of [wordWidth / k] for an integer [k >= 1]. *)
Definition is_quotient_of (wordWidth v : Z) : Prop :=
  exists k, 1 <= k /\ v = wordWidth / k.

(** The progression of [GetNextBitPack] from [k_cItemsPerBitPackMax2]. *)
Definition BitPackProgression : list Z :=
  BitPackChain GetNextBitPack (Z.to_nat k_cBitsForStorageType)
    k_cItemsPerBitPackMax2.

(** The progression of [GetNextCountItemsBitPacked] from the word width. *)
Definition CountItemsProgression : list Z :=
  BitPackChain GetNextCountItemsBitPacked (Z.to_nat k_cBitsForStorageType)
    k_cBitsForStorageType.

(** ** Task descriptors (lines 336-364) *)

Definition k_regression : Z := -1.
Definition k_dynamicClassification : Z := 0.
Definition k_oneScore : Z := 1.

Definition IsRegression (learningTypeOrCountTargetClasses : Z) : bool :=
  k_regression =? learningTypeOrCountTargetClasses.

Definition IsClassification (learningTypeOrCountTargetClasses : Z) : bool :=
  0 <=? learningTypeOrCountTargetClasses.

(** [EXPAND_BINARY_LOGITS] is a build flag; it is the first argument of
    the functions whose body it selects. *)
Definition IsBinaryClassification (EXPAND_BINARY_LOGITS : bool)
    (learningTypeOrCountTargetClasses : Z) : bool :=
  if EXPAND_BINARY_LOGITS then false
  else 2 =? learningTypeOrCountTargetClasses.

Definition IsMulticlass (EXPAND_BINARY_LOGITS : bool)
    (learningTypeOrCountTargetClasses : Z) : bool :=
  IsClassification learningTypeOrCountTargetClasses &&
  negb (IsBinaryClassification EXPAND_BINARY_LOGITS
          learningTypeOrCountTargetClasses).

(** [static_cast<size_t>] of a [ptrdiff_t] reduces modulo [2 ^ size_bits]. *)
Definition GetVectorLength (EXPAND_BINARY_LOGITS : bool)
    (learningTypeOrCountTargetClasses : Z) : Z :=
  if EXPAND_BINARY_LOGITS
  then (if learningTypeOrCountTargetClasses <=? 1 then 1
        else wrap_size learningTypeOrCountTargetClasses)
  else (if learningTypeOrCountTargetClasses <=? 2 then 1
        else wrap_size learningTypeOrCountTargetClasses).

(** The values the encoding gives a meaning to: the reserved negative
    value, zero, and the positive class counts. *)
Definition IsTaskDescriptor (learningTypeOrCountTargetClasses : Z) : Prop :=
  learningTypeOrCountTargetClasses = k_regression \/
  learningTypeOrCountTargetClasses = k_dynamicClassification \/
  0 < learningTypeOrCountTargetClasses.

(** ** Compile-time or run-time values (lines 372-393, 422-429) *)

Definition k_cCompilerOptimizedCountDimensionsMax : Z := 2.




(** ** Allocation (lines 516-554) *)

Section Malloc.
(** The C allocator is kept abstract: a request of [cBytes] bytes in a heap
    state either fails (null) or yields a pointer, and leaves a heap state. *)
Variables (heap ptr : Type).
Variable malloc : Z -> heap -> option ptr * heap.

(** [EbmMalloc<T>(cItems)]; [cBytesPerItem] is [sizeof(T)], or
    [sizeof(char)] when [T] is [void], and is positive (static_assert). *)
Definition EbmMalloc_cItems (cBytesPerItem : Z) (cItems : Z) (h : heap)
  : option ptr * heap :=
  let bOneByte := 1 =? cBytesPerItem in
  if bOneByte then
    let cBytes := cItems in
    malloc cBytes h
  else
    if IsMultiplyError cItems cBytesPerItem then (None, h)
    else
      let cBytes := wrap_size (cItems * cBytesPerItem) in
      malloc cBytes h.

(** [EbmMalloc<T>(cItems, cBytesPerItem)] *)
Definition EbmMalloc_cItems_cBytesPerItem (cItems cBytesPerItem : Z)
    (h : heap) : option ptr * heap :=
  if IsMultiplyError cItems cBytesPerItem then (None, h)
  else
    let cBytes := wrap_size (cItems * cBytesPerItem) in
    malloc cBytes h.

End Malloc.

End SizeT.

(** ** Minimum and maximum (lines 235-245), on integers *)

(** [return (v1 < v2) ? v1 : v2;] *)
Definition EbmMin (v1 v2 : Z) : Z := if v1 <? v2 then v1 else v2.

(** [return (v1 < v2) ? v2 : v1;] *)
Definition EbmMax (v1 v2 : Z) : Z := if v1 <? v2 then v2 else v1.

(** ** The tokenizer (lines 556-627) *)

Section Tokenizer.

(** The value of a [char].  Whether [char] is signed does not matter to the
    comparisons below: a byte above 127 fails each of them either way. *)
Definition char_code (c : ascii) : Z := Z.of_N (N_of_ascii c).

(** [*s]: the byte a pointer points to; the terminating NUL at the end. *)
Definition deref (s : string) : ascii :=
  match s with
  | EmptyString => zero
  | String c _ => c
  end.

(** [++s].  The source never steps over the terminating NUL. *)
Definition advance (s : string) : string :=
  match s with
  | EmptyString => EmptyString
  | String _ s' => s'
  end.

(** [0x20 == oneChar || 0x9 <= oneChar && oneChar <= 0xd] *)
Definition is_whitespace (oneChar : ascii) : bool :=
  (0x20 =? char_code oneChar) ||
  ((0x9 <=? char_code oneChar) && (char_code oneChar <=? 0xd)).

(** [while(is_whitespace(oneChar)) { ++s; oneChar = *s; } return s;]
    The loops at the start and at the end of
    [IsStringEqualsCaseInsensitive] are this same loop, written inline. *)
Fixpoint SkipWhitespace (s : string) : string :=
  match s with
  | EmptyString => s
  | String oneChar s' => if is_whitespace oneChar then SkipWhitespace s' else s
  end.

(** [if('A' <= c && c <= 'Z') { c += 'a' - 'A'; }] *)
Definition lower_if_upper (c : ascii) : ascii :=
  if (char_code "A"%char <=? char_code c) && (char_code c <=? char_code "Z"%char)
  then ascii_of_N (N_of_ascii c + (N_of_ascii "a"%char - N_of_ascii "A"%char))
  else c.

(** The loop [while(0 != labelChar) { ... }]: [None] is the [return nullptr]
    inside it, [Some sMain] the position reached when the label ends. *)
Fixpoint label_loop (sMain sLabel : string) : option string :=
  match sLabel with
  | EmptyString => Some sMain
  | String labelChar sLabel' =>
      if 0 =? char_code labelChar then Some sMain
      else
        let mainChar := lower_if_upper (deref sMain) in
        let labelChar := lower_if_upper labelChar in
        if Ascii.eqb mainChar labelChar
        then label_loop (advance sMain) sLabel'
        else None
  end.

Definition IsStringEqualsCaseInsensitive (sMain sLabel : string)
  : option string :=
  let sMain := SkipWhitespace sMain in
  match label_loop sMain sLabel with
  | None => None
  | Some sMain => Some (SkipWhitespace sMain)
  end.

(** *** What the specification says, in its own words *)

Definition is_upper (c : ascii) : Prop := 65 <= char_code c <= 90.

(** Two bytes are equal up to ASCII letter case. *)
Definition same_letter (c1 c2 : ascii) : Prop :=
  c1 = c2 \/
  (is_upper c1 /\ char_code c2 = char_code c1 + 32) \/
  (is_upper c2 /\ char_code c1 = char_code c2 + 32).

(** Two strings have the same length and agree byte by byte up to case. *)
Inductive eq_ci : string -> string -> Prop :=
| eq_ci_nil : eq_ci EmptyString EmptyString
| eq_ci_cons c1 c2 s1 s2 :
    same_letter c1 c2 -> eq_ci s1 s2 -> eq_ci (String c1 s1) (String c2 s2).

Inductive all_whitespace : string -> Prop :=
| all_ws_nil : all_whitespace EmptyString
| all_ws_cons c s :
    is_whitespace c = true -> all_whitespace s -> all_whitespace (String c s).

(** [p] is [s] without its leading whitespace. *)
Definition strips_to (s p : string) : Prop :=
  exists ws, s = (ws ++ p)%string /\ all_whitespace ws /\ is_whitespace (deref p) = false.

(** A string with no NUL byte in it: the content of a C string. *)
Inductive no_nul : string -> Prop :=
| no_nul_nil : no_nul EmptyString
| no_nul_cons c s : char_code c <> 0 -> no_nul s -> no_nul (String c s).

(** [sMain], after its leading whitespace, begins with [sLabel] up to
    case, and [p] is the first position after the match that holds no
    whitespace. *)
Definition matches_label (sMain sLabel p : string) : Prop :=
  exists body pre rest,
    strips_to sMain body /\ body = (pre ++ rest)%string /\ eq_ci pre sLabel /\
    strips_to rest p.

End Tokenizer.

(** ** Value-preserving conversions (lines 249-311) *)

Module Conv.

(** The integer types of 8 to 64 bits. *)
Inductive Width : Type := W8 | W16 | W32 | W64.

Record IntType : Type := { is_signed : bool; width : Width }.

Definition bits (T : IntType) : Z :=
  match width T with W8 => 8 | W16 => 16 | W32 => 32 | W64 => 64 end.

(** [std::numeric_limits<T>::lowest()] and [max()] *)
Definition lowest (T : IntType) : Z :=
  if is_signed T then - 2 ^ (bits T - 1) else 0.
Definition max (T : IntType) : Z :=
  if is_signed T then 2 ^ (bits T - 1) - 1 else 2 ^ bits T - 1.

Definition in_range (T : IntType) (v : Z) : Prop := lowest T <= v <= max T.
Definition in_rangeb (T : IntType) (v : Z) : bool :=
  (lowest T <=? v) && (v <=? max T).

Definition int : IntType := {| is_signed := true; width := W32 |}.

(** Integral promotion: a type narrower than [int] becomes [int]. *)
Definition promote (T : IntType) : IntType :=
  if bits T <? bits int then int else T.

(** The usual arithmetic conversions on two promoted types: with equal
    signedness the wider type; otherwise the unsigned type unless the
    signed one is strictly wider (and so holds every unsigned value). *)
Definition common_type (T1 T2 : IntType) : IntType :=
  if Bool.eqb (is_signed T1) (is_signed T2) then
    (if bits T1 <? bits T2 then T2 else T1)
  else
    let S := if is_signed T1 then T1 else T2 in
    let U := if is_signed T1 then T2 else T1 in
    if bits U <? bits S then S else U.

(** Conversion of a value to a type: reduction modulo [2 ^ bits] into an
    unsigned type; into a signed type the value must fit ([None] marks a
    conversion that would not preserve it). *)
Definition convert (T : IntType) (v : Z) : option Z :=
  if is_signed T
  then (if in_rangeb T v then Some v else None)
  else Some (v mod 2 ^ bits T).

(** [v1 <= v2] for [v1] of type [T1] and [v2] of type [T2]. *)
Definition le_op (T1 : IntType) (v1 : Z) (T2 : IntType) (v2 : Z)
  : option bool :=
  let C := common_type (promote T1) (promote T2) in
  match convert C v1, convert C v2 with
  | Some a, Some b => Some (a <=? b)
  | _, _ => None
  end.

(** [a && b]: [b] is evaluated only when [a] is true. *)
Definition and_op (a : option bool) (b : option bool) : option bool :=
  match a with
  | Some true => b
  | Some false => Some false
  | None => None
  end.

(** The one-line [return] of the source: a choice on the signedness of
    [TTo] and [TFrom].  The literal [0] has type [int]. *)
Definition IsNumberConvertable (TTo TFrom : IntType) (number : Z)
  : option bool :=
  if is_signed TTo then
    (if is_signed TFrom
     then and_op (le_op TTo (lowest TTo) TFrom number)
                 (le_op TFrom number TTo (max TTo))
     else le_op TFrom number TTo (max TTo))
  else
    (if is_signed TFrom
     then and_op (le_op int 0 TFrom number)
                 (le_op TFrom number TTo (max TTo))
     else le_op TFrom number TTo (max TTo)).

End Conv.

(* ===================================================================== *)
(** * Part II: properties                                                 *)
(* ===================================================================== *)

Section SizeTFacts.
Context {P : Platform}.

Lemma size_bits_pos : 0 < size_bits.
Proof. pose proof size_bits_min. lia. Qed.

Lemma pow_size_bits_large : 65536 <= 2 ^ size_bits.
Proof.
  change 65536 with (2 ^ 16).
  apply Z.pow_le_mono_r; [lia | apply size_bits_min].
Qed.

Lemma SIZE_MAX_large : 65535 <= SIZE_MAX.
Proof. unfold SIZE_MAX. pose proof pow_size_bits_large. lia. Qed.

Lemma wrap_size_small z : is_size_t z -> wrap_size z = z.
Proof.
  unfold is_size_t, wrap_size, SIZE_MAX. intros H.
  apply Z.mod_small. lia.
Qed.

Lemma wrap_size_range z : is_size_t (wrap_size z).
Proof.
  unfold is_size_t, wrap_size, SIZE_MAX.
  pose proof pow_size_bits_large.
  pose proof (Z.mod_pos_bound z (2 ^ size_bits)). lia.
Qed.

(** The subtraction and the addition inside [IsMultiplyError] do not wrap
    once [num1] is known to be positive. *)
Lemma IsMultiplyError_no_wrap num1 :
  is_size_t num1 -> 0 < num1 ->
  wrap_size (SIZE_MAX - num1) = SIZE_MAX - num1 /\
  wrap_size (wrap_size (SIZE_MAX - num1) + 1) = SIZE_MAX - num1 + 1.
Proof.
  intros H Hpos. unfold is_size_t in H.
  assert (E : wrap_size (SIZE_MAX - num1) = SIZE_MAX - num1)
    by (apply wrap_size_small; unfold is_size_t; lia).
  split; [exact E|].
  rewrite E. apply wrap_size_small. unfold is_size_t. lia.
Qed.

(** What [IsMultiplyError] computes, exactly: it compares the product
    plus [num1 - 1] with the maximum. *)
Lemma IsMultiplyError_exact num1 num2 :
  is_size_t num1 -> is_size_t num2 ->
  IsMultiplyError num1 num2 = true <->
  0 < num1 /\ SIZE_MAX < num1 * num2 + (num1 - 1).
Proof.
  intros H1 H2. unfold IsMultiplyError.
  destruct (Z.eqb_spec 0 num1) as [E|E]; simpl.
  - split; [discriminate | lia].
  - assert (Hpos : 0 < num1) by (unfold is_size_t in H1; lia).
    destruct (IsMultiplyError_no_wrap num1 H1 Hpos) as [_ ->].
    rewrite Z.ltb_lt. split.
    + intros Hlt. split; [exact Hpos|].
      pose proof (Z.mul_succ_div_gt (SIZE_MAX - num1 + 1) num1 Hpos).
      nia.
    + intros [_ Hgt].
      apply Z.div_lt_upper_bound; [exact Hpos|]. lia.
Qed.

(** Every product that overflows is reported. *)
Lemma IsMultiplyError_sound num1 num2 :
  is_size_t num1 -> is_size_t num2 ->
  SIZE_MAX < num1 * num2 -> IsMultiplyError num1 num2 = true.
Proof.
  intros H1 H2 Hov. apply IsMultiplyError_exact; trivial.
  unfold is_size_t in *. split; nia.
Qed.

(** [IsAddError] is exact. *)
Lemma IsAddError_exact num1 num2 :
  is_size_t num1 -> is_size_t num2 ->
  IsAddError num1 num2 = true <-> SIZE_MAX < num1 + num2.
Proof.
  unfold is_size_t, IsAddError, wrap_size, SIZE_MAX. intros H1 H2.
  pose proof pow_size_bits_large as Hp.
  rewrite Z.ltb_lt.
  destruct (Z_lt_le_dec (num1 + num2) (2 ^ size_bits)) as [Hs|Hb].
  - rewrite Z.mod_small by lia. lia.
  - replace ((num1 + num2) mod 2 ^ size_bits)
      with (num1 + num2 - 2 ^ size_bits).
    + lia.
    + apply Z.mod_unique with (q := 1); lia.
Qed.

(** For every multiplier that does not divide [2 ^ size_bits] there is a
    product equal to [SIZE_MAX] or less that [IsMultiplyError] reports. *)
Lemma IsMultiplyError_over_reports num1 :
  is_size_t num1 -> 0 < num1 -> (2 ^ size_bits) mod num1 <> 0 ->
  let num2 := 2 ^ size_bits / num1 in
  is_size_t num2 /\ num1 * num2 <= SIZE_MAX /\
  IsMultiplyError num1 num2 = true.
Proof.
  intros H1 Hpos Hnd num2.
  pose proof pow_size_bits_large as Hp.
  pose proof (Z.div_mod (2 ^ size_bits) num1 ltac:(lia)) as Hdm.
  pose proof (Z.mod_pos_bound (2 ^ size_bits) num1 Hpos) as Hm.
  fold num2 in Hdm.
  assert (Hn2 : 0 <= num2) by (apply Z.div_pos; lia).
  assert (Hr : is_size_t num2) by (unfold is_size_t, SIZE_MAX; nia).
  split; [exact Hr|]. split.
  - unfold SIZE_MAX. lia.
  - apply IsMultiplyError_exact; trivial. unfold SIZE_MAX. lia.
Qed.

End SizeTFacts.

Section CountBits.
Context {P : Platform}.

(** The defining equation of the source, as an equation of the model. *)
Lemma CountBitsRequired_step maxValue :
  CountBitsRequired maxValue =
  if 0 =? maxValue then 0
  else wrap_size (1 + CountBitsRequired (Z.quot maxValue 2)).
Proof.
  funelim (CountBitsRequired maxValue);
    destruct (Z.eqb_spec 0 maxValue); (reflexivity || contradiction).
Qed.

Lemma halving_call_wf : well_founded halving_call.
Proof.
  apply (well_founded_lt_compat Z (fun z => Z.abs_nat z) halving_call).
  intros y x [Hx ->].
  apply Nat2Z.inj_lt. rewrite !Zabs2Nat.id_abs.
  rewrite <- Z.quot_abs by lia.
  apply Z.quot_lt; lia.
Qed.

(** The width found for [maxValue] brackets it between two powers of 2. *)
Lemma CountBitsRequired_bracket maxValue :
  0 <= maxValue < 2 ^ SIZE_MAX ->
  0 <= CountBitsRequired maxValue /\
  maxValue < 2 ^ CountBitsRequired maxValue /\
  (0 < maxValue -> 2 ^ (CountBitsRequired maxValue - 1) <= maxValue).
Proof.
  induction maxValue as [m IH] using (well_founded_induction (Z.lt_wf 0)).
  intros Hm. rewrite CountBitsRequired_step.
  destruct (Z.eqb_spec 0 m) as [E|E].
  - subst. simpl. lia.
  - assert (Hq : Z.quot m 2 = m / 2) by (apply Z.quot_div_nonneg; lia).
    rewrite Hq.
    pose proof (Z.div_mod m 2 ltac:(lia)) as Hdm.
    pose proof (Z.mod_pos_bound m 2 ltac:(lia)) as Hmod.
    destruct (IH (m / 2) ltac:(lia) ltac:(lia)) as (Hw0 & Hup & Hlo).
    set (w := CountBitsRequired (m / 2)) in *.
    assert (Hw : w < SIZE_MAX).
    { destruct (Z.eq_dec (m / 2) 0) as [Hz|Hz].
      - unfold w. rewrite Hz, CountBitsRequired_step. simpl.
        pose proof SIZE_MAX_large. lia.
      - specialize (Hlo ltac:(lia)).
        assert (Hw1 : 0 < w).
        { destruct (Z.eq_dec w 0) as [W0|W0]; [|lia].
          rewrite W0 in Hup. simpl in Hup. lia. }
        apply (Z.pow_lt_mono_r_iff 2); [lia | pose proof SIZE_MAX_large; lia |].
        replace (2 ^ w) with (2 * 2 ^ (w - 1)); [lia|].
        rewrite <- Z.pow_succ_r by lia. f_equal. lia. }
    rewrite wrap_size_small by (unfold is_size_t; lia).
    replace (1 + w - 1) with w by lia.
    replace (1 + w) with (Z.succ w) by lia.
    rewrite Z.pow_succ_r by lia.
    split; [lia|]. split; [lia|]. intros _.
    destruct (Z.eq_dec (m / 2) 0) as [Hz|Hz].
    + unfold w. rewrite Hz, CountBitsRequired_step. simpl. lia.
    + specialize (Hlo ltac:(lia)).
      assert (Hw1 : 0 < w).
      { destruct (Z.eq_dec w 0) as [W0|W0]; [|lia].
        rewrite W0 in Hup. simpl in Hup. lia. }
      replace (2 ^ w) with (2 * 2 ^ (w - 1)); [lia|].
      rewrite <- Z.pow_succ_r by lia. f_equal. lia.
Qed.

(** [CountBitsRequired] is the bit length: [Z.log2] plus one. *)
Lemma CountBitsRequired_log2 maxValue :
  0 < maxValue < 2 ^ SIZE_MAX ->
  CountBitsRequired maxValue = Z.log2 maxValue + 1.
Proof.
  intros Hm.
  destruct (CountBitsRequired_bracket maxValue ltac:(lia)) as (H0 & Hup & Hlo).
  specialize (Hlo ltac:(lia)).
  symmetry.
  assert (Z.log2 maxValue = CountBitsRequired maxValue - 1); [|lia].
  apply Z.log2_unique.
  - assert (CountBitsRequired maxValue <> 0); [|lia].
    intros E. rewrite E in Hup. simpl in Hup. lia.
  - replace (Z.succ (CountBitsRequired maxValue - 1))
      with (CountBitsRequired maxValue) by lia.
    lia.
Qed.

Lemma size_bits_lt_pow : size_bits < 2 ^ size_bits.
Proof. apply Z.pow_gt_lin_r; [lia | pose proof size_bits_pos; lia]. Qed.

(** The storage word has as many bits as [size_t]. *)
Lemma k_cBitsForStorageType_value : k_cBitsForStorageType = size_bits.
Proof.
  unfold k_cBitsForStorageType, CountBitsRequiredPositiveMax_size_t.
  pose proof size_bits_pos as Hp.
  pose proof size_bits_lt_pow as Hlt.
  pose proof pow_size_bits_large as Hl.
  assert (Hb : 0 < SIZE_MAX < 2 ^ SIZE_MAX).
  { unfold SIZE_MAX at 1 2. split; [lia|].
    apply Z.lt_le_trans with (2 ^ size_bits); [lia|].
    apply Z.pow_le_mono_r; [lia | unfold SIZE_MAX; lia]. }
  rewrite CountBitsRequired_log2 by exact Hb.
  unfold SIZE_MAX.
  replace (2 ^ size_bits - 1) with (Z.pred (2 ^ size_bits)) by lia.
  rewrite Z.log2_pred_pow2 by lia. lia.
Qed.

Lemma k_cBitsForSizeT_value : k_cBitsForSizeT = size_bits.
Proof. exact k_cBitsForStorageType_value. Qed.

(** [static_assert(k_cDimensionsMax < k_cBitsForSizeT, ...)] *)
Lemma k_cDimensionsMax_value :
  k_cDimensionsMax = size_bits - 1 /\ k_cDimensionsMax < k_cBitsForSizeT.
Proof.
  unfold k_cDimensionsMax. rewrite k_cBitsForSizeT_value.
  pose proof size_bits_pos. pose proof size_bits_lt_pow.
  rewrite wrap_size_small by (unfold is_size_t, SIZE_MAX; lia). lia.
Qed.

End CountBits.

(** ** The canonical progression *)

Section ChainFacts.
(** The facts of this section hold for any word width [K] and any [next]
    that computes [K / (K / c + 1)] on the values [1 .. K]. *)
Variable K : Z.
Hypothesis K_pos : 1 <= K.
Variable next : Z -> Z.
Hypothesis next_eq : forall c, 1 <= c <= K -> next c = K / (K / c + 1).

Lemma quotient_pos c : 1 <= c <= K -> 1 <= K / c.
Proof.
  intros Hc. apply Z.div_le_lower_bound; lia.
Qed.

Lemma next_lt c : 1 <= c <= K -> 0 <= next c < c.
Proof.
  intros Hc. rewrite next_eq by exact Hc.
  pose proof (quotient_pos c Hc) as Hq.
  split.
  - apply Z.div_pos; lia.
  - apply Z.div_lt_upper_bound; [lia|].
    pose proof (Z.mul_succ_div_gt K c ltac:(lia)). lia.
Qed.

Lemma next_is_quotient c : 1 <= c <= K -> is_quotient_of K (next c).
Proof.
  intros Hc. exists (K / c + 1). split.
  - pose proof (quotient_pos c Hc). lia.
  - apply next_eq, Hc.
Qed.

(** No value of [K / k] lies strictly between [next c] and [c]. *)
Lemma next_no_skip c k :
  1 <= c <= K -> 1 <= k -> K / k < c -> K / k <= next c.
Proof.
  intros Hc Hk Hlt. rewrite next_eq by exact Hc.
  pose proof (quotient_pos c Hc) as Hq.
  assert (Hk' : K / c < k).
  { destruct (Z_lt_le_dec (K / c) k) as [|Hle]; [assumption|exfalso].
    assert (c <= K / k); [|lia].
    apply Z.div_le_lower_bound; [lia|].
    pose proof (Z.mul_div_le K c ltac:(lia)). nia. }
  apply Z.div_le_compat_l; lia.
Qed.

(** A value on the progression is recovered from its quotient. *)
Lemma quotient_round_trip v :
  0 < v -> is_quotient_of K v -> K / (K / v) = v.
Proof.
  intros Hv (k & Hk & ->).
  assert (Hkq : k <= K / (K / k)).
  { apply Z.div_le_lower_bound; [lia|].
    rewrite Z.mul_comm. apply Z.mul_div_le. lia. }
  apply Z.le_antisymm.
  - apply Z.div_le_compat_l; lia.
  - apply Z.div_le_lower_bound; [lia|].
    rewrite Z.mul_comm.
    pose proof (Z.mul_div_le K (K / k) ltac:(lia)). lia.
Qed.

(** Membership in the chain that starts at [c]. *)
Lemma BitPackChain_members fuel : forall c,
  0 <= c <= K -> (Z.to_nat c <= fuel)%nat ->
  forall v, In v (BitPackChain next fuel c) <->
            0 < v <= c /\ (v = c \/ is_quotient_of K v).
Proof.
  induction fuel as [|fuel IH]; intros c Hc Hfuel v; simpl.
  - split; [contradiction | lia].
  - destruct (Z.eqb_spec c 0) as [E|E].
    + split; [contradiction | lia].
    + assert (Hc1 : 1 <= c <= K) by lia.
      pose proof (next_lt c Hc1) as Hn.
      simpl. rewrite (IH (next c)) by lia.
      split.
      * intros [<-|(Hv & [->|Hq])].
        -- split; [lia | now left].
        -- split; [lia | right; apply next_is_quotient, Hc1].
        -- split; [lia | now right].
      * intros (Hv & [->|Hq]); [now left|].
        destruct (Z.eq_dec v c) as [->|Hne]; [now left|right].
        split; [|now right].
        destruct Hq as (k & Hk & ->).
        split; [lia|]. apply next_no_skip; trivial. lia.
Qed.

(** The chain is strictly decreasing. *)
Lemma BitPackChain_sorted fuel : forall c,
  0 <= c <= K -> (Z.to_nat c <= fuel)%nat ->
  StronglySorted Z.gt (BitPackChain next fuel c).
Proof.
  induction fuel as [|fuel IH]; intros c Hc Hfuel; simpl.
  - constructor.
  - destruct (Z.eqb_spec c 0) as [E|E]; [constructor|].
    assert (Hc1 : 1 <= c <= K) by lia.
    pose proof (next_lt c Hc1) as Hn.
    constructor.
    + apply IH; lia.
    + apply Forall_forall. intros v Hv.
      apply BitPackChain_members in Hv; lia.
Qed.

(** Once the fuel covers the starting value the chain ends by itself, on
    the sentinel, and more fuel does not change it. *)
Lemma BitPackChain_fuel fuel1 : forall fuel2 c,
  0 <= c <= K -> (Z.to_nat c <= fuel1)%nat -> (Z.to_nat c <= fuel2)%nat ->
  BitPackChain next fuel1 c = BitPackChain next fuel2 c.
Proof.
  induction fuel1 as [|fuel1 IH]; intros fuel2 c Hc H1 H2.
  - assert (c = 0) by lia. subst.
    destruct fuel2; reflexivity.
  - simpl. destruct (Z.eqb_spec c 0) as [E|E].
    + subst. destruct fuel2; reflexivity.
    + destruct fuel2 as [|fuel2]; [lia|].
      simpl. destruct (Z.eqb_spec c 0) as [|_]; [contradiction|].
      assert (Hc1 : 1 <= c <= K) by lia.
      pose proof (next_lt c Hc1) as Hn.
      f_equal. apply IH; lia.
Qed.

End ChainFacts.

(** Two step functions that agree on [1 .. K] walk the same chain. *)
Lemma BitPackChain_ext K next1 next2 :
  1 <= K ->
  (forall c, 1 <= c <= K -> next1 c = K / (K / c + 1)) ->
  (forall c, 1 <= c <= K -> next2 c = K / (K / c + 1)) ->
  forall fuel c, 0 <= c <= K ->
  BitPackChain next1 fuel c = BitPackChain next2 fuel c.
Proof.
  intros HK H1 H2 fuel.
  induction fuel as [|fuel IH]; intros c Hc; simpl; [reflexivity|].
  destruct (Z.eqb_spec c 0) as [E|E]; [reflexivity|].
  assert (Hc1 : 1 <= c <= K) by lia.
  pose proof (next_lt K HK next1 H1 c Hc1) as Hn.
  rewrite (H2 c Hc1), <- (H1 c Hc1).
  f_equal. apply IH. lia.
Qed.

Lemma StronglySorted_gt_NoDup (l : list Z) :
  StronglySorted Z.gt l -> NoDup l.
Proof.
  induction 1 as [|a l Hs IH Hall]; constructor; [|exact IH].
  intros Hin. rewrite Forall_forall in Hall.
  specialize (Hall a Hin). lia.
Qed.

(** A strictly decreasing list of positive values that holds 1 ends on it. *)
Lemma StronglySorted_gt_last_one (l : list Z) :
  StronglySorted Z.gt l -> (forall v, In v l -> 0 < v) -> In 1 l ->
  last l 0 = 1.
Proof.
  induction 1 as [|a l Hs IH Hall]; intros Hpos Hin; [contradiction|].
  rewrite Forall_forall in Hall.
  destruct l as [|b l'].
  - simpl in *. lia.
  - change (last (a :: b :: l') 0) with (last (b :: l') 0).
    apply IH.
    + intros v Hv. apply Hpos. now right.
    + destruct Hin as [->|Hin]; [|exact Hin].
      exfalso.
      pose proof (Hall b (or_introl eq_refl)).
      pose proof (Hpos b (or_intror (or_introl eq_refl))). lia.
Qed.

Section Progression.
Context {P : Platform}.

Lemma k_cBitsForStorageType_bounds :
  16 <= k_cBitsForStorageType /\ k_cBitsForStorageType + 1 < 2 ^ size_bits.
Proof.
  rewrite k_cBitsForStorageType_value.
  pose proof size_bits_min as Hmin.
  split; [exact Hmin|].
  assert (H0 : 0 <= size_bits - 1) by lia.
  pose proof (Z.pow_gt_lin_r 2 (size_bits - 1) ltac:(lia) H0) as Hlin.
  replace (2 ^ size_bits) with (2 * 2 ^ (size_bits - 1)); [lia|].
  rewrite <- Z.pow_succ_r by lia. f_equal. lia.
Qed.

Lemma GetNextBitPack_formula c :
  1 <= c <= k_cBitsForStorageType ->
  GetNextBitPack c =
  k_cBitsForStorageType / (k_cBitsForStorageType / c + 1).
Proof.
  intros Hc. pose proof k_cBitsForStorageType_bounds as HK.
  unfold GetNextBitPack, k_cItemsPerBitPackMin2, k_cItemsPerBitPackDynamic2.
  destruct (Z.eqb_spec 1 c) as [<-|Hne].
  - rewrite Z.div_1_r. symmetry. apply Z.div_small. lia.
  - pose proof (quotient_pos _ c Hc).
    rewrite (Z.quot_div_nonneg _ c) by lia.
    apply Z.quot_div_nonneg; lia.
Qed.

Lemma GetNextCountItemsBitPacked_formula c :
  1 <= c <= k_cBitsForStorageType ->
  GetNextCountItemsBitPacked c =
  k_cBitsForStorageType / (k_cBitsForStorageType / c + 1).
Proof.
  intros Hc. pose proof k_cBitsForStorageType_bounds as HK.
  unfold GetNextCountItemsBitPacked, k_cItemsPerBitPackMin.
  destruct (Z.eqb_spec 0 c) as [|_]; [lia|].
  pose proof (quotient_pos _ c Hc).
  assert (k_cBitsForStorageType / c <= k_cBitsForStorageType).
  { apply Z.div_le_upper_bound; nia. }
  rewrite wrap_size_small by (unfold is_size_t, SIZE_MAX; lia).
  reflexivity.
Qed.

Lemma quotient_le_width v :
  is_quotient_of k_cBitsForStorageType v -> v <= k_cBitsForStorageType.
Proof.
  intros (k & Hk & ->). pose proof k_cBitsForStorageType_bounds.
  apply Z.div_le_upper_bound; nia.
Qed.

Lemma width_is_quotient :
  is_quotient_of k_cBitsForStorageType k_cBitsForStorageType.
Proof. exists 1. split; [lia | now rewrite Z.div_1_r]. Qed.

Lemma BitPackProgression_members v :
  In v BitPackProgression <->
  0 < v /\ is_quotient_of k_cBitsForStorageType v.
Proof.
  pose proof k_cBitsForStorageType_bounds as HK.
  assert (HK1 : 1 <= k_cBitsForStorageType) by lia.
  unfold BitPackProgression, k_cItemsPerBitPackMax2.
  rewrite (BitPackChain_members k_cBitsForStorageType HK1
             GetNextBitPack GetNextBitPack_formula) by lia.
  split.
  - intros (Hv & [->|Hq]); split; trivial; try lia.
    apply width_is_quotient.
  - intros (Hv & Hq). pose proof (quotient_le_width v Hq).
    split; [lia | now right].
Qed.

(** The static assertions on the bounds of the progression
    (lines 453-466). *)
Lemma bit_pack_static_asserts :
  k_cItemsPerBitPackMax2 <= k_cBitsForStorageType /\
  1 <= k_cItemsPerBitPackMin2 /\
  k_cItemsPerBitPackMin2 <= k_cItemsPerBitPackMax2 /\
  k_cItemsPerBitPackMin2 =
    Z.quot k_cBitsForStorageType
      (Z.quot k_cBitsForStorageType k_cItemsPerBitPackMin2) /\
  k_cItemsPerBitPackMax2 =
    Z.quot k_cBitsForStorageType
      (Z.quot k_cBitsForStorageType k_cItemsPerBitPackMax2) /\
  k_cItemsPerBitPackLast = 1.
Proof.
  pose proof k_cBitsForStorageType_bounds as HK.
  unfold k_cItemsPerBitPackLast, k_cItemsPerBitPackMax2,
    k_cItemsPerBitPackMin2.
  rewrite Z.quot_1_r, Z.quot_same, Z.quot_1_r, Z.eqb_refl by lia.
  repeat split; lia.
Qed.

(** After 1 both step functions return the dynamic sentinel. *)
Lemma progression_ends_on_sentinel :
  GetNextBitPack 1 = k_cItemsPerBitPackDynamic2 /\
  GetNextCountItemsBitPacked 1 = k_cItemsPerBitPackDynamic.
Proof.
  pose proof k_cBitsForStorageType_bounds as HK.
  split; [reflexivity|].
  rewrite GetNextCountItemsBitPacked_formula by lia.
  rewrite Z.div_1_r. apply Z.div_small. lia.
Qed.

End Progression.

(** C4. Walking [GetNextBitPack] (or [GetNextCountItemsBitPacked], which
    walks the same values) from the storage word width gives a strictly
    decreasing sequence without duplicates that starts at the width, ends
    at 1, and whose members are exactly the positive values of
    [wordWidth / k] for the integers [k >= 1]; fuel equal to the width is
    enough for the walk to end by itself.  On a 64 bit word the sequence
    is 64, 32, 21, 16, 12, 10, 9, 8, 7, 6, 5, 4, 3, 2, 1. *)
Theorem progression_canonical (P : Platform) :
  BitPackProgression = CountItemsProgression /\
  hd 0 BitPackProgression = k_cBitsForStorageType /\
  StronglySorted Z.gt BitPackProgression /\
  NoDup BitPackProgression /\
  last BitPackProgression 0 = 1 /\
  (forall v, In v BitPackProgression <->
             0 < v /\ is_quotient_of k_cBitsForStorageType v) /\
  (forall fuel, (Z.to_nat k_cBitsForStorageType <= fuel)%nat ->
     BitPackChain GetNextBitPack fuel k_cItemsPerBitPackMax2 =
     BitPackProgression) /\
  @BitPackProgression LP64 =
    [64; 32; 21; 16; 12; 10; 9; 8; 7; 6; 5; 4; 3; 2; 1] /\
  @BitPackProgression ILP32 = [32; 16; 10; 8; 6; 5; 4; 3; 2; 1].
Proof.
  pose proof k_cBitsForStorageType_bounds as HK.
  assert (HK1 : 1 <= k_cBitsForStorageType) by lia.
  assert (Hsorted : StronglySorted Z.gt BitPackProgression).
  { apply (BitPackChain_sorted k_cBitsForStorageType HK1
             GetNextBitPack GetNextBitPack_formula);
      unfold k_cItemsPerBitPackMax2; lia. }
  split; [|split; [|split; [|split; [|split; [|split; [|split; [|split]]]]]]].
  - apply (BitPackChain_ext k_cBitsForStorageType); try lia.
    + apply GetNextBitPack_formula.
    + apply GetNextCountItemsBitPacked_formula.
  - unfold BitPackProgression, k_cItemsPerBitPackMax2.
    destruct (Z.to_nat k_cBitsForStorageType) eqn:E; [lia|].
    simpl. destruct (Z.eqb_spec k_cBitsForStorageType 0); [lia|reflexivity].
  - exact Hsorted.
  - apply StronglySorted_gt_NoDup, Hsorted.
  - apply StronglySorted_gt_last_one; [exact Hsorted | |].
    + intros v Hv. apply BitPackProgression_members in Hv. tauto.
    + apply BitPackProgression_members. split; [lia|].
      exists k_cBitsForStorageType. split; [lia|].
      symmetry. apply Z.div_same. lia.
  - apply BitPackProgression_members.
  - intros fuel Hfuel. unfold BitPackProgression, k_cItemsPerBitPackMax2.
    apply (BitPackChain_fuel k_cBitsForStorageType HK1
             GetNextBitPack GetNextBitPack_formula); lia.
  - vm_compute. reflexivity.
  - vm_compute. reflexivity.
Qed.

Lemma progression_canonical_witness :
  BitPackChain (@GetNextBitPack LP64) 100 (@k_cItemsPerBitPackMax2 LP64) =
    [64; 32; 21; 16; 12; 10; 9; 8; 7; 6; 5; 4; 3; 2; 1].
Proof.
  destruct (progression_canonical LP64)
    as (_ & _ & _ & _ & _ & _ & Hfuel & H64 & _).
  rewrite <- H64. apply Hfuel. vm_compute. lia.
Defined.

(** C6. For every [cItems] on the canonical progression the bits per item
    [GetCountBits cItems] are [wordWidth / cItems], the items fit in the
    word, and dividing the word width by the bits per item gives [cItems]
    back. *)
Theorem GetCountBits_round_trip (P : Platform) (cItems : Z) :
  In cItems BitPackProgression ->
  GetCountBits cItems = k_cBitsForStorageType / cItems /\
  GetCountBits cItems * cItems <= k_cBitsForStorageType /\
  k_cBitsForStorageType / GetCountBits cItems = cItems /\
  GetCountBits (GetCountBits cItems) = cItems.
Proof.
  intros Hin. apply BitPackProgression_members in Hin as (Hpos & Hq).
  pose proof k_cBitsForStorageType_bounds as HK.
  assert (HK1 : 1 <= k_cBitsForStorageType) by lia.
  pose proof (quotient_round_trip k_cBitsForStorageType HK1
                cItems Hpos Hq) as Hrt.
  unfold GetCountBits.
  split; [reflexivity|]. split; [|split; exact Hrt].
  rewrite Z.mul_comm. apply Z.mul_div_le. exact Hpos.
Qed.

Lemma GetCountBits_round_trip_witness :
  In 21 (@BitPackProgression LP64) /\
  @GetCountBits LP64 21 = 3 /\
  @k_cBitsForStorageType LP64 / @GetCountBits LP64 21 = 21.
Proof.
  assert (Hin : In 21 (@BitPackProgression LP64))
    by (vm_compute; tauto).
  split; [exact Hin|].
  destruct (GetCountBits_round_trip LP64 21 Hin) as (H1 & _ & H3 & _).
  split; [rewrite H1; vm_compute; reflexivity | exact H3].
Defined.

(** ** Overflow checks and allocation *)

(** C1. On a 64 bit [size_t] the exact product of 3 and
    6148914691236517205 is [SIZE_MAX], which is representable, and yet
    [IsMultiplyError] reports it: the check is not exact in the direction
    "reported implies overflow".  The same happens on a 32 bit [size_t]
    with 3 and 1431655765. *)
Theorem IsMultiplyError_false_positive :
  (3 * 6148914691236517205 = @SIZE_MAX LP64 /\
   @IsMultiplyError LP64 3 6148914691236517205 = true) /\
  (3 * 1431655765 = @SIZE_MAX ILP32 /\
   @IsMultiplyError ILP32 3 1431655765 = true).
Proof. vm_compute. repeat split. Qed.

(** C3. When the exact product of the item count and the item size
    exceeds [SIZE_MAX], both forms of [EbmMalloc] return the null pointer
    and leave the heap as it was: the allocator is not asked for a
    truncated size. *)
Theorem EbmMalloc_overflow_returns_null (P : Platform)
    (heap ptr : Type) (malloc : Z -> heap -> option ptr * heap)
    (cItems cBytesPerItem : Z) (h : heap) :
  is_size_t cItems -> is_size_t cBytesPerItem ->
  SIZE_MAX < cItems * cBytesPerItem ->
  EbmMalloc_cItems_cBytesPerItem heap ptr malloc cItems cBytesPerItem h
    = (None, h) /\
  EbmMalloc_cItems heap ptr malloc cBytesPerItem cItems h = (None, h).
Proof.
  intros H1 H2 Hov.
  pose proof (IsMultiplyError_sound cItems cBytesPerItem H1 H2 Hov) as E.
  unfold EbmMalloc_cItems_cBytesPerItem, EbmMalloc_cItems.
  rewrite E. split; [reflexivity|].
  destruct (Z.eqb_spec 1 cBytesPerItem) as [E1|_]; [|reflexivity].
  exfalso. unfold is_size_t in H1. subst. lia.
Qed.

Lemma EbmMalloc_overflow_returns_null_witness :
  EbmMalloc_cItems_cBytesPerItem (P := LP64) unit Z
    (fun cBytes h => (Some cBytes, h)) 4611686018427387904 8 tt
    = (None, tt) /\
  EbmMalloc_cItems (P := LP64) unit Z
    (fun cBytes h => (Some cBytes, h)) 8 4611686018427387904 tt
    = (None, tt).
Proof.
  apply (EbmMalloc_overflow_returns_null LP64 unit Z
           (fun cBytes h => (Some cBytes, h)) 4611686018427387904 8 tt).
  - unfold is_size_t. vm_compute. split; discriminate.
  - unfold is_size_t. vm_compute. split; discriminate.
  - vm_compute. reflexivity.
Defined.

(** When the product fits, the allocator is asked for exactly the product. *)
Lemma EbmMalloc_in_range (P : Platform)
    (heap ptr : Type) (malloc : Z -> heap -> option ptr * heap)
    (cItems cBytesPerItem : Z) (h : heap) :
  is_size_t cItems -> is_size_t cBytesPerItem ->
  EbmMalloc_cItems_cBytesPerItem heap ptr malloc cItems cBytesPerItem h
    = (None, h) \/
  EbmMalloc_cItems_cBytesPerItem heap ptr malloc cItems cBytesPerItem h
    = malloc (cItems * cBytesPerItem) h.
Proof.
  intros H1 H2. unfold EbmMalloc_cItems_cBytesPerItem.
  destruct (IsMultiplyError cItems cBytesPerItem) eqn:E; [now left|right].
  rewrite wrap_size_small; [reflexivity|].
  unfold is_size_t in *.
  split; [nia|].
  destruct (Z_lt_le_dec SIZE_MAX (cItems * cBytesPerItem)) as [Hov|]; [|lia].
  rewrite (IsMultiplyError_sound cItems cBytesPerItem) in E;
    unfold is_size_t; trivial; discriminate.
Qed.

(** ** Bit widths *)

(** C5. The recursion of [CountBitsRequired] on [maxValue / 2] is well
    founded, [CountBitsRequired 0] is 0, and for every non-negative
    [maxValue] (of any integer type whose bit count a [size_t] can hold)
    the result is the smallest width [w] with [maxValue < 2 ^ w]. *)
Theorem CountBitsRequired_smallest_width (P : Platform) (maxValue : Z) :
  0 <= maxValue < 2 ^ SIZE_MAX ->
  well_founded halving_call /\
  CountBitsRequired 0 = 0 /\
  0 <= CountBitsRequired maxValue /\
  maxValue < 2 ^ CountBitsRequired maxValue /\
  (forall w, maxValue < 2 ^ w -> CountBitsRequired maxValue <= w).
Proof.
  intros Hm.
  destruct (CountBitsRequired_bracket maxValue Hm) as (H0 & Hup & Hlo).
  split; [exact halving_call_wf|].
  split; [rewrite CountBitsRequired_step; reflexivity|].
  split; [exact H0|]. split; [exact Hup|].
  intros w Hw.
  destruct (Z_lt_le_dec w 0) as [Hneg|Hnn].
  - rewrite Z.pow_neg_r in Hw by exact Hneg. lia.
  - destruct (Z.eq_dec maxValue 0) as [->|Hne].
    + rewrite CountBitsRequired_step. simpl. exact Hnn.
    + specialize (Hlo ltac:(lia)).
      assert (CountBitsRequired maxValue - 1 < w); [|lia].
      apply (Z.pow_lt_mono_r_iff 2); lia.
Qed.

Lemma CountBitsRequired_smallest_width_witness :
  @CountBitsRequired LP64 255 = 8.
Proof.
  assert (Hm : 0 <= 255 < 2 ^ @SIZE_MAX LP64).
  { split; [lia|].
    apply Z.lt_le_trans with (2 ^ 8); [reflexivity|].
    apply Z.pow_le_mono_r; [lia | vm_compute; discriminate]. }
  destruct (CountBitsRequired_smallest_width LP64 255 Hm)
    as (_ & _ & H0 & Hup & Hmin).
  apply Z.le_antisymm.
  - apply Hmin. reflexivity.
  - destruct (Z_lt_le_dec (@CountBitsRequired LP64 255) 8) as [Hlt|]; [|assumption].
    exfalso.
    assert (2 ^ @CountBitsRequired LP64 255 <= 2 ^ 7)
      by (apply Z.pow_le_mono_r; lia).
    change (2 ^ 7) with 128 in *. lia.
Defined.

(** ** Task descriptors *)

(** C7. [GetVectorLength] is 1 on the regression descriptor; on the
    2-class descriptor it is 1 under the default policy and 2 under the
    expand-binary-logits policy; on every N-class descriptor with N from
    3 to 10 it is N, under either policy. *)
Theorem GetVectorLength_values (P : Platform) :
  (forall b, GetVectorLength b k_regression = 1) /\
  IsRegression k_regression = true /\
  (IsBinaryClassification false 2 = true /\ GetVectorLength false 2 = 1) /\
  GetVectorLength true 2 = 2 /\
  (forall b N, 3 <= N <= 10 ->
     IsMulticlass b N = true /\ GetVectorLength b N = N).
Proof.
  pose proof pow_size_bits_large as Hp.
  split; [intros []; reflexivity|].
  split; [reflexivity|]. split; [split; reflexivity|].
  split.
  - unfold GetVectorLength. simpl.
    apply wrap_size_small. unfold is_size_t, SIZE_MAX. lia.
  - intros b N HN. split.
    + unfold IsMulticlass, IsClassification, IsBinaryClassification.
      destruct b; destruct (Z.leb_spec 0 N); destruct (Z.eqb_spec 2 N);
        simpl; trivial; lia.
    + unfold GetVectorLength.
      destruct b; [destruct (Z.leb_spec N 1) | destruct (Z.leb_spec N 2)];
        try lia; apply wrap_size_small; unfold is_size_t, SIZE_MAX; lia.
Qed.

Lemma GetVectorLength_values_witness :
  @GetVectorLength LP64 false 7 = 7 /\ @GetVectorLength ILP32 true 10 = 10.
Proof.
  split.
  - apply (proj2 (proj2 (proj2 (proj2 (GetVectorLength_values LP64)))) false 7).
    lia.
  - apply (proj2 (proj2 (proj2 (proj2 (GetVectorLength_values ILP32)))) true 10).
    lia.
Defined.

(** C8. For every value of the descriptor encoding (the reserved
    negative value, zero, or a positive class count) exactly one of
    [IsRegression], [IsBinaryClassification], [IsMulticlass] holds, under
    either policy. *)
Theorem task_family_exactly_one (EXPAND_BINARY_LOGITS : bool) (d : Z) :
  IsTaskDescriptor d ->
  (IsRegression d = true /\
   IsBinaryClassification EXPAND_BINARY_LOGITS d = false /\
   IsMulticlass EXPAND_BINARY_LOGITS d = false) \/
  (IsRegression d = false /\
   IsBinaryClassification EXPAND_BINARY_LOGITS d = true /\
   IsMulticlass EXPAND_BINARY_LOGITS d = false) \/
  (IsRegression d = false /\
   IsBinaryClassification EXPAND_BINARY_LOGITS d = false /\
   IsMulticlass EXPAND_BINARY_LOGITS d = true).
Proof.
  unfold IsTaskDescriptor, IsMulticlass, IsBinaryClassification,
    IsClassification, IsRegression, k_regression, k_dynamicClassification.
  intros Hd.
  destruct EXPAND_BINARY_LOGITS;
    destruct (Z.eqb_spec (-1) d); destruct (Z.leb_spec 0 d);
    destruct (Z.eqb_spec 2 d); simpl; try lia; tauto.
Qed.

Lemma task_family_exactly_one_witness :
  IsRegression 2 = false /\
  IsBinaryClassification false 2 = true /\
  IsMulticlass false 2 = false.
Proof.
  assert (Hd : IsTaskDescriptor 2) by (right; right; reflexivity).
  destruct (task_family_exactly_one false 2 Hd)
    as [(H & _)|[H|(_ & H & _)]]; [discriminate H | exact H | discriminate H].
Defined.

(** Outside the encoding no family holds: the three predicates are all
    false on [-2]. *)
Lemma task_family_none_below_regression b :
  IsRegression (-2) = false /\
  IsBinaryClassification b (-2) = false /\
  IsMulticlass b (-2) = false.
Proof. destruct b; repeat split. Qed.

(** C10. Under the default policy [GetVectorLength] is 1 on every
    descriptor that is 2 or less, in particular on the dynamic sentinel 0
    and on 1: the sentinel yields length 1, not a class count. *)
Theorem GetVectorLength_default_collapses (P : Platform) (d : Z) :
  d <= 2 ->
  GetVectorLength false d = 1 /\
  GetVectorLength false k_dynamicClassification = 1 /\
  GetVectorLength false 1 = 1.
Proof.
  intros Hd. unfold GetVectorLength. simpl.
  destruct (Z.leb_spec d 2); [|lia]. repeat split.
Qed.

Lemma GetVectorLength_default_collapses_witness :
  @GetVectorLength LP64 false 0 = 1.
Proof.
  apply (GetVectorLength_default_collapses LP64 0). lia.
Defined.

(** ** Value-preserving conversions *)

Module ConvFacts.
Import Conv.

(** The static assertions of the source hold for every pair of types. *)
Lemma static_asserts (TTo TFrom : IntType) :
  (is_signed TTo = true \/ lowest TTo = 0) /\
  0 <= max TTo /\
  (is_signed TTo <> is_signed TFrom \/
   (lowest TTo <= lowest TFrom /\ max TFrom <= max TTo) \/
   (lowest TFrom <= lowest TTo /\ max TTo <= max TFrom)).
Proof.
  destruct TTo as [[] []], TFrom as [[] []]; cbv;
    intuition (discriminate || congruence).
Qed.

(** Case analysis on the comparisons of a goal, those on converted
    operands last, after the reductions have been resolved. *)
Ltac split_leb :=
  match goal with
  | |- context [Z.leb ?a ?b] =>
      lazymatch a with
      | context [Z.modulo] => fail
      | _ => lazymatch b with
             | context [Z.modulo] => fail
             | _ => destruct (Z.leb_spec a b)
             end
      end
  end.

Ltac conv_step :=
  first [ rewrite Z.mod_small by lia | split_leb ]; simpl.

End ConvFacts.

(** C2. For every pair of integer types of 8 to 64 bits, signed or not,
    and every value of [TFrom], the check evaluates (no operand
    conversion loses the value) and is true exactly when the value lies
    in [[lowest TTo, max TTo]]; a negative value never converts to an
    unsigned type, and from an unsigned type only the upper bound is
    compared. *)
Theorem IsNumberConvertable_exact (TTo TFrom : Conv.IntType) (number : Z) :
  Conv.in_range TFrom number ->
  Conv.IsNumberConvertable TTo TFrom number
    = Some (Conv.in_rangeb TTo number) /\
  (Conv.is_signed TTo = false -> number < 0 ->
   Conv.IsNumberConvertable TTo TFrom number = Some false) /\
  (Conv.is_signed TFrom = false ->
   Conv.IsNumberConvertable TTo TFrom number
     = Conv.le_op TFrom number TTo (Conv.max TTo)).
Proof.
  intros Hr.
  assert (E : Conv.IsNumberConvertable TTo TFrom number
              = Some (Conv.in_rangeb TTo number)).
  { destruct TTo as [[] []], TFrom as [[] []];
      unfold Conv.in_range, Conv.lowest, Conv.max, Conv.bits in Hr;
      simpl in Hr;
      unfold Conv.IsNumberConvertable, Conv.le_op, Conv.and_op,
        Conv.convert, Conv.common_type, Conv.promote, Conv.in_rangeb,
        Conv.lowest, Conv.max, Conv.bits, Conv.int;
      simpl;
      repeat ConvFacts.conv_step;
      first [reflexivity | lia]. }
  split; [exact E|]. split.
  - intros Hu Hneg. rewrite E. f_equal.
    unfold Conv.in_rangeb, Conv.lowest. rewrite Hu.
    destruct (Z.leb_spec 0 number); [lia | reflexivity].
  - intros Hu. unfold Conv.IsNumberConvertable. rewrite Hu.
    destruct (Conv.is_signed TTo); reflexivity.
Qed.

Lemma IsNumberConvertable_exact_witness :
  Conv.IsNumberConvertable
    {| Conv.is_signed := false; Conv.width := Conv.W8 |}
    {| Conv.is_signed := true; Conv.width := Conv.W64 |} (-1) = Some false /\
  Conv.IsNumberConvertable
    {| Conv.is_signed := true; Conv.width := Conv.W8 |}
    {| Conv.is_signed := false; Conv.width := Conv.W64 |} 127 = Some true.
Proof.
  split.
  - refine (proj1 (IsNumberConvertable_exact
             {| Conv.is_signed := false; Conv.width := Conv.W8 |}
             {| Conv.is_signed := true; Conv.width := Conv.W64 |} (-1) _)).
    unfold Conv.in_range. vm_compute. split; discriminate.
  - refine (proj1 (IsNumberConvertable_exact
             {| Conv.is_signed := true; Conv.width := Conv.W8 |}
             {| Conv.is_signed := false; Conv.width := Conv.W64 |} 127 _)).
    unfold Conv.in_range. vm_compute. split; discriminate.
Defined.

(** ** The tokenizer *)

Section TokenizerFacts.

Lemma char_code_range c : 0 <= char_code c < 256.
Proof.
  unfold char_code. pose proof (N_ascii_bounded c). lia.
Qed.

Lemma char_code_inj c1 c2 : char_code c1 = char_code c2 -> c1 = c2.
Proof.
  unfold char_code. intros H. apply N2Z.inj in H.
  rewrite <- (ascii_N_embedding c1), <- (ascii_N_embedding c2).
  now rewrite H.
Qed.

(** The byte [lower_if_upper] leaves: 32 more on an upper case letter. *)
Lemma char_code_lower c :
  char_code (lower_if_upper c) =
  if (65 <=? char_code c) && (char_code c <=? 90)
  then char_code c + 32 else char_code c.
Proof.
  unfold lower_if_upper.
  change (char_code "A") with 65. change (char_code "Z") with 90.
  change (N_of_ascii "a" - N_of_ascii "A")%N with 32%N.
  destruct ((65 <=? char_code c) && (char_code c <=? 90)) eqn:E;
    [|reflexivity].
  apply andb_true_iff in E as [E1 E2].
  apply Z.leb_le in E1, E2.
  unfold char_code in *.
  rewrite N_ascii_embedding by lia. lia.
Qed.

(** The comparison of the source is equality up to letter case. *)
Lemma lower_eq_same_letter c1 c2 :
  lower_if_upper c1 = lower_if_upper c2 <-> same_letter c1 c2.
Proof.
  pose proof (char_code_range c1). pose proof (char_code_range c2).
  pose proof (char_code_lower c1) as L1.
  pose proof (char_code_lower c2) as L2.
  unfold same_letter, is_upper. split.
  - intros E. rewrite E in L1. rewrite L1 in L2. clear E L1.
    destruct (Z.leb_spec 65 (char_code c1)), (Z.leb_spec (char_code c1) 90),
      (Z.leb_spec 65 (char_code c2)), (Z.leb_spec (char_code c2) 90);
      simpl in L2;
      solve [ left; apply char_code_inj; lia
            | right; left; lia
            | right; right; lia ].
  - intros Hs. apply char_code_inj. rewrite L1, L2.
    destruct Hs as [->|[(Hu & E)|(Hu & E)]]; [reflexivity| |];
      destruct (Z.leb_spec 65 (char_code c1)), (Z.leb_spec (char_code c1) 90),
        (Z.leb_spec 65 (char_code c2)), (Z.leb_spec (char_code c2) 90);
      simpl; lia.
Qed.

Lemma same_letter_refl c : same_letter c c.
Proof. now left. Qed.

Lemma same_letter_sym c1 c2 : same_letter c1 c2 -> same_letter c2 c1.
Proof. intros H. apply lower_eq_same_letter. symmetry. now apply lower_eq_same_letter. Qed.

Lemma same_letter_nul c1 c2 :
  same_letter c1 c2 -> (char_code c1 = 0 <-> char_code c2 = 0).
Proof.
  unfold same_letter, is_upper. intros [->|[H|H]]; [tauto|lia|lia].
Qed.

Lemma same_letter_whitespace c1 c2 :
  same_letter c1 c2 -> is_whitespace c1 = is_whitespace c2.
Proof.
  unfold same_letter, is_upper, is_whitespace.
  intros [->|[(Hu & E)|(Hu & E)]]; [reflexivity| |];
    destruct (Z.eqb_spec 32 (char_code c1)), (Z.eqb_spec 32 (char_code c2)),
      (Z.leb_spec 9 (char_code c1)), (Z.leb_spec (char_code c1) 13),
      (Z.leb_spec 9 (char_code c2)), (Z.leb_spec (char_code c2) 13);
    simpl; try reflexivity; lia.
Qed.

Lemma eq_ci_refl s : eq_ci s s.
Proof. induction s; constructor; [apply same_letter_refl | assumption]. Qed.

Lemma eq_ci_sym s1 s2 : eq_ci s1 s2 -> eq_ci s2 s1.
Proof.
  induction 1; constructor; [now apply same_letter_sym | assumption].
Qed.

(** [SkipWhitespace] removes exactly the leading whitespace. *)
Lemma SkipWhitespace_strips s : strips_to s (SkipWhitespace s).
Proof.
  induction s as [|c s IH]; simpl.
  - exists EmptyString. repeat split. constructor.
  - destruct (is_whitespace c) eqn:E.
    + destruct IH as (ws & Hs & Hall & Hd).
      exists (String c ws). simpl. rewrite <- Hs.
      repeat split; [constructor|]; assumption.
    + exists EmptyString. repeat split; [constructor | exact E].
Qed.

Lemma strips_to_unique s p : strips_to s p -> p = SkipWhitespace s.
Proof.
  intros (ws & -> & Hall & Hd).
  induction Hall as [|c ws Hc Hall IH]; cbn [append SkipWhitespace].
  - destruct p as [|c p]; [reflexivity|].
    cbn [deref SkipWhitespace] in *. now rewrite Hd.
  - rewrite Hc. exact IH.
Qed.

Lemma eq_ci_nil_inv s : eq_ci s EmptyString -> s = EmptyString.
Proof. inversion 1; reflexivity. Qed.

Lemma eq_ci_cons_inv s c l :
  eq_ci s (String c l) ->
  exists a s', s = String a s' /\ same_letter a c /\ eq_ci s' l.
Proof. inversion 1; subst; eauto. Qed.

(** The label loop succeeds exactly on a prefix equal to the label up to
    case, and stops right after it. *)
Lemma label_loop_exact sLabel :
  no_nul sLabel ->
  forall sMain r,
    label_loop sMain sLabel = Some r <->
    exists pre, sMain = (pre ++ r)%string /\ eq_ci pre sLabel.
Proof.
  induction 1 as [|c l Hc Hl IH]; intros m r; cbn [label_loop].
  - split.
    + intros [= ->]. exists EmptyString. split; [reflexivity | constructor].
    + intros (pre & -> & Hpre). apply eq_ci_nil_inv in Hpre. now subst.
  - destruct (Z.eqb_spec 0 (char_code c)) as [E|_]; [congruence|].
    destruct (Ascii.eqb_spec (lower_if_upper (deref m)) (lower_if_upper c))
      as [El|El].
    + apply lower_eq_same_letter in El.
      destruct m as [|a m']; cbn [deref advance] in *.
      * apply same_letter_nul in El. exfalso. apply Hc, El. reflexivity.
      * rewrite IH. split.
        -- intros (pre & -> & Hpre). exists (String a pre).
           split; [reflexivity | now constructor].
        -- intros (pre & Hm & Hpre).
           apply eq_ci_cons_inv in Hpre as (a' & pre' & -> & Ha & Hpre').
           cbn [append] in Hm. injection Hm as -> ->.
           now exists pre'.
    + split; [discriminate|].
      intros (pre & Hm & Hpre).
      apply eq_ci_cons_inv in Hpre as (a' & pre' & -> & Ha & Hpre').
      subst m. cbn [append deref] in El.
      exfalso. apply El. now apply lower_eq_same_letter.
Qed.

Lemma SkipWhitespace_eq_ci s1 s2 :
  eq_ci s1 s2 -> eq_ci (SkipWhitespace s1) (SkipWhitespace s2).
Proof.
  induction 1 as [|c1 c2 s1 s2 Hc Hs IH]; cbn [SkipWhitespace].
  - constructor.
  - rewrite <- (same_letter_whitespace c1 c2 Hc).
    destruct (is_whitespace c1); [exact IH | now constructor].
Qed.

(** The outcome of the label loop does not depend on letter case. *)
Lemma label_loop_eq_ci l1 l2 :
  eq_ci l1 l2 ->
  forall m1 m2, eq_ci m1 m2 ->
    match label_loop m1 l1, label_loop m2 l2 with
    | Some r1, Some r2 => eq_ci r1 r2
    | None, None => True
    | _, _ => False
    end.
Proof.
  induction 1 as [|c1 c2 l1 l2 Hc Hl IH]; intros m1 m2 Hm;
    cbn [label_loop]; [exact Hm|].
  pose proof (same_letter_nul c1 c2 Hc) as Hn.
  destruct (Z.eqb_spec 0 (char_code c1)) as [E1|E1],
           (Z.eqb_spec 0 (char_code c2)) as [E2|E2];
    try (exfalso; lia); [exact Hm|].
  assert (Hd : same_letter (deref m1) (deref m2)).
  { destruct Hm; cbn [deref]; [apply same_letter_refl | assumption]. }
  assert (Ha : eq_ci (advance m1) (advance m2)).
  { destruct Hm; cbn [advance]; [constructor | assumption]. }
  apply lower_eq_same_letter in Hd, Hc. rewrite Hd, Hc.
  destruct (Ascii.eqb (lower_if_upper (deref m2)) (lower_if_upper c2));
    [apply IH, Ha | exact I].
Qed.

End TokenizerFacts.

(** C9. For every main string and every label (a string without NUL),
    [IsStringEqualsCaseInsensitive] returns a pointer exactly when the
    main string, after its leading whitespace, begins with the label up to
    ASCII letter case; the pointer is then the first position after the
    match that holds no whitespace.  Changing the letter case of either
    string does not change whether there is a match: "LOG_LOSS" and
    "log_loss" both match the label "log_loss". *)
Theorem IsStringEqualsCaseInsensitive_exact (sMain sLabel : string) :
  no_nul sLabel ->
  (forall p, IsStringEqualsCaseInsensitive sMain sLabel = Some p <->
             matches_label sMain sLabel p) /\
  (IsStringEqualsCaseInsensitive sMain sLabel <> None <->
   exists body pre rest,
     strips_to sMain body /\ body = (pre ++ rest)%string /\
     eq_ci pre sLabel) /\
  (forall sMain' sLabel',
     eq_ci sMain sMain' -> eq_ci sLabel sLabel' ->
     (IsStringEqualsCaseInsensitive sMain sLabel <> None <->
      IsStringEqualsCaseInsensitive sMain' sLabel' <> None)) /\
  IsStringEqualsCaseInsensitive "LOG_LOSS" "log_loss" = Some EmptyString /\
  IsStringEqualsCaseInsensitive "log_loss" "log_loss" = Some EmptyString.
Proof.
  intros Hl.
  assert (Hexact : forall p,
    IsStringEqualsCaseInsensitive sMain sLabel = Some p <->
    matches_label sMain sLabel p).
  { intros p. unfold IsStringEqualsCaseInsensitive, matches_label. split.
    - destruct (label_loop (SkipWhitespace sMain) sLabel) as [r|] eqn:E;
        [|discriminate].
      intros [= <-].
      apply (label_loop_exact sLabel Hl) in E as (pre & Hb & Hpre).
      exists (SkipWhitespace sMain), pre, r.
      repeat split; trivial; apply SkipWhitespace_strips.
    - intros (body & pre & rest & Hs & Hb & Hpre & Hp).
      apply strips_to_unique in Hs, Hp. subst body p.
      assert (E : label_loop (SkipWhitespace sMain) sLabel = Some rest)
        by (apply (label_loop_exact sLabel Hl); eauto).
      now rewrite E. }
  split; [exact Hexact|]. split; [|split; [|split; reflexivity]].
  - split.
    + destruct (IsStringEqualsCaseInsensitive sMain sLabel) as [p|] eqn:E;
        [intros _ | congruence].
      destruct (proj1 (Hexact p) eq_refl)
        as (body & pre & rest & Hs & Hb & Hpre & _).
      now exists body, pre, rest.
    + intros (body & pre & rest & Hs & Hb & Hpre).
      assert (E : IsStringEqualsCaseInsensitive sMain sLabel
                  = Some (SkipWhitespace rest)).
      { apply Hexact. exists body, pre, rest.
        repeat split; trivial. apply SkipWhitespace_strips. }
      rewrite E. discriminate.
  - intros sMain' sLabel' Hm Hlab.
    unfold IsStringEqualsCaseInsensitive.
    pose proof (label_loop_eq_ci sLabel sLabel' Hlab
                  (SkipWhitespace sMain) (SkipWhitespace sMain')
                  (SkipWhitespace_eq_ci _ _ Hm)) as H.
    destruct (label_loop (SkipWhitespace sMain) sLabel),
             (label_loop (SkipWhitespace sMain') sLabel');
      try contradiction; split; intros; congruence.
Qed.

Lemma IsStringEqualsCaseInsensitive_exact_witness :
  IsStringEqualsCaseInsensitive "  Log_Loss  :x" "log_loss" = Some ":x"%string /\
  matches_label "  Log_Loss  :x" "log_loss" ":x".
Proof.
  assert (Hl : no_nul "log_loss")
    by (repeat constructor; vm_compute; discriminate).
  split; [reflexivity|].
  apply (proj1 (IsStringEqualsCaseInsensitive_exact
                  "  Log_Loss  :x" "log_loss" Hl)).
  reflexivity.
Defined.

(* ===================================================================== *)
(** * Part III: further properties of the header                          *)
(* ===================================================================== *)

(** ** Overflow checks *)

(** X1. [IsAddError] reports exactly the sums above [SIZE_MAX]; it does
    not depend on the order of its operands although it compares with the
    first one only; when it reports nothing the wrapped sum is the exact
    sum. *)
Theorem IsAddError_overflow_iff (P : Platform) (num1 num2 : Z) :
  is_size_t num1 -> is_size_t num2 ->
  (IsAddError num1 num2 = true <-> SIZE_MAX < num1 + num2) /\
  IsAddError num1 num2 = IsAddError num2 num1 /\
  (IsAddError num1 num2 = false -> wrap_size (num1 + num2) = num1 + num2).
Proof.
  intros H1 H2.
  pose proof (IsAddError_exact num1 num2 H1 H2) as E12.
  pose proof (IsAddError_exact num2 num1 H2 H1) as E21.
  split; [exact E12|]. split.
  - destruct (IsAddError num1 num2) eqn:A, (IsAddError num2 num1) eqn:B;
      trivial; exfalso.
    + assert (SIZE_MAX < num2 + num1) by (rewrite Z.add_comm; now apply E12).
      apply E21 in H. congruence.
    + assert (SIZE_MAX < num1 + num2) by (rewrite Z.add_comm; now apply E21).
      apply E12 in H. congruence.
  - intros Hf. apply wrap_size_small. unfold is_size_t in *.
    split; [lia|].
    destruct (Z_lt_le_dec SIZE_MAX (num1 + num2)) as [Hov|]; [|assumption].
    apply E12 in Hov. congruence.
Qed.

Lemma IsAddError_overflow_iff_witness :
  @IsAddError LP64 18446744073709551615 1 = true /\
  @IsAddError LP64 1 18446744073709551615 = true.
Proof.
  assert (H1 : @is_size_t LP64 18446744073709551615)
    by (unfold is_size_t; vm_compute; split; discriminate).
  assert (H2 : @is_size_t LP64 1)
    by (unfold is_size_t; vm_compute; split; discriminate).
  destruct (IsAddError_overflow_iff LP64 18446744073709551615 1 H1 H2)
    as (Hiff & Hsym & _).
  assert (E : @IsAddError LP64 18446744073709551615 1 = true)
    by (apply Hiff; vm_compute; reflexivity).
  split; [exact E | rewrite <- Hsym; exact E].
Defined.

(** X2. What [IsMultiplyError] decides: it reports a pair exactly when
    [num1] is positive and the product plus [num1 - 1] exceeds
    [SIZE_MAX]; the subtraction and the addition inside the check never
    wrap, and the divisor is never zero when the quotient is used. *)
Theorem IsMultiplyError_characterised (P : Platform) (num1 num2 : Z) :
  is_size_t num1 -> is_size_t num2 ->
  (IsMultiplyError num1 num2 = true <->
   0 < num1 /\ SIZE_MAX < num1 * num2 + (num1 - 1)) /\
  (0 <> num1 ->
   wrap_size (wrap_size (SIZE_MAX - num1) + 1) = SIZE_MAX - num1 + 1) /\
  (0 = num1 -> IsMultiplyError num1 num2 = false).
Proof.
  intros H1 H2. split; [now apply IsMultiplyError_exact|]. split.
  - intros Hne. apply IsMultiplyError_no_wrap; trivial.
    unfold is_size_t in H1. lia.
  - intros <-. reflexivity.
Qed.

Lemma IsMultiplyError_characterised_witness :
  @IsMultiplyError LP64 4294967296 4294967296 = true.
Proof.
  assert (H1 : @is_size_t LP64 4294967296)
    by (unfold is_size_t; vm_compute; split; discriminate).
  apply (proj1 (IsMultiplyError_characterised LP64 _ _ H1 H1)).
  vm_compute. split; reflexivity.
Defined.

(** X3. [IsMultiplyError] never misses an overflow: when it answers
    [false] the exact product is at most [SIZE_MAX], so the product the
    caller then computes in [size_t] is the exact one. *)
Theorem IsMultiplyError_false_is_safe (P : Platform) (num1 num2 : Z) :
  is_size_t num1 -> is_size_t num2 ->
  IsMultiplyError num1 num2 = false ->
  num1 * num2 <= SIZE_MAX /\ wrap_size (num1 * num2) = num1 * num2.
Proof.
  intros H1 H2 Hf.
  assert (Hle : num1 * num2 <= SIZE_MAX).
  { destruct (Z_lt_le_dec SIZE_MAX (num1 * num2)) as [Hov|]; [|assumption].
    rewrite (IsMultiplyError_sound num1 num2 H1 H2 Hov) in Hf.
    discriminate. }
  split; [exact Hle|].
  apply wrap_size_small. unfold is_size_t in *. split; [nia | exact Hle].
Qed.

Lemma IsMultiplyError_false_is_safe_witness :
  @wrap_size LP64 (4294967296 * 4294967295) = 4294967296 * 4294967295.
Proof.
  assert (H1 : @is_size_t LP64 4294967296)
    by (unfold is_size_t; vm_compute; split; discriminate).
  assert (H2 : @is_size_t LP64 4294967295)
    by (unfold is_size_t; vm_compute; split; discriminate).
  apply (IsMultiplyError_false_is_safe LP64 _ _ H1 H2).
  vm_compute. reflexivity.
Defined.

(** X4. On a first operand that divides [2 ^ size_bits] (every power of
    two a [size_t] holds) [IsMultiplyError] is exact. *)
Theorem IsMultiplyError_exact_on_divisors (P : Platform) (num1 num2 : Z) :
  is_size_t num1 -> is_size_t num2 ->
  0 < num1 -> (2 ^ size_bits) mod num1 = 0 ->
  (IsMultiplyError num1 num2 = true <-> SIZE_MAX < num1 * num2).
Proof.
  intros H1 H2 Hpos Hdiv.
  rewrite (IsMultiplyError_exact num1 num2 H1 H2).
  pose proof (Z.div_mod (2 ^ size_bits) num1 ltac:(lia)) as Hdm.
  rewrite Hdiv, Z.add_0_r in Hdm.
  set (k := 2 ^ size_bits / num1) in *.
  unfold SIZE_MAX. rewrite Hdm. split.
  - intros [_ Hlt].
    assert (k <= num2) by nia. nia.
  - intros Hlt. split; [exact Hpos | lia].
Qed.

Lemma IsMultiplyError_exact_on_divisors_witness :
  @IsMultiplyError LP64 8 2305843009213693952 = true.
Proof.
  assert (H1 : @is_size_t LP64 8)
    by (unfold is_size_t; vm_compute; split; discriminate).
  assert (H2 : @is_size_t LP64 2305843009213693952)
    by (unfold is_size_t; vm_compute; split; discriminate).
  apply (IsMultiplyError_exact_on_divisors LP64 _ _ H1 H2).
  - lia.
  - vm_compute. reflexivity.
  - vm_compute. reflexivity.
Defined.

(** X5. Zero and one as operands.  A zero operand on either side is never
    reported and neither is a first operand of 1; but with 1 as the
    second operand every first operand above [2 ^ (size_bits - 1)] is
    reported, although the product is the operand itself: the check is
    not symmetric. *)
Theorem IsMultiplyError_zero_and_one (P : Platform) (n : Z) :
  is_size_t n ->
  IsMultiplyError 0 n = false /\
  IsMultiplyError n 0 = false /\
  IsMultiplyError 1 n = false /\
  (IsMultiplyError n 1 = true <-> 2 ^ (size_bits - 1) < n).
Proof.
  intros Hn. pose proof SIZE_MAX_large as HL.
  assert (H0 : is_size_t 0) by (unfold is_size_t; lia).
  assert (H1 : is_size_t 1) by (unfold is_size_t; lia).
  assert (Hp : 2 ^ size_bits = 2 * 2 ^ (size_bits - 1)).
  { pose proof size_bits_pos.
    rewrite <- Z.pow_succ_r by lia. f_equal. lia. }
  split; [reflexivity|]. split; [|split].
  - destruct (IsMultiplyError n 0) eqn:E; [|reflexivity].
    apply (IsMultiplyError_exact n 0 Hn H0) in E.
    unfold is_size_t in Hn. lia.
  - destruct (IsMultiplyError 1 n) eqn:E; [|reflexivity].
    apply (IsMultiplyError_exact 1 n H1 Hn) in E.
    unfold is_size_t in Hn. lia.
  - rewrite (IsMultiplyError_exact n 1 Hn H1).
    unfold SIZE_MAX. unfold is_size_t in Hn. lia.
Qed.

Lemma IsMultiplyError_zero_and_one_witness :
  @IsMultiplyError LP64 9223372036854775809 1 = true /\
  @IsMultiplyError LP64 1 9223372036854775809 = false.
Proof.
  assert (Hn : @is_size_t LP64 9223372036854775809)
    by (unfold is_size_t; vm_compute; split; discriminate).
  destruct (IsMultiplyError_zero_and_one LP64 _ Hn) as (_ & _ & H1 & Hn1).
  split; [|exact H1].
  apply Hn1. vm_compute. reflexivity.
Defined.

(** ** Allocation *)

(** X6. What the two argument [EbmMalloc] asks of the allocator: it
    returns null without touching the heap when the item count is
    positive and the product plus [cItems - 1] exceeds [SIZE_MAX], and
    otherwise it passes the exact product, never a wrapped one, and
    returns what the allocator returns. *)
Theorem EbmMalloc_request (P : Platform)
    (heap ptr : Type) (malloc : Z -> heap -> option ptr * heap)
    (cItems cBytesPerItem : Z) (h : heap) :
  is_size_t cItems -> is_size_t cBytesPerItem ->
  (0 < cItems /\ SIZE_MAX < cItems * cBytesPerItem + (cItems - 1) ->
   EbmMalloc_cItems_cBytesPerItem heap ptr malloc cItems cBytesPerItem h
     = (None, h)) /\
  (~ (0 < cItems /\ SIZE_MAX < cItems * cBytesPerItem + (cItems - 1)) ->
   EbmMalloc_cItems_cBytesPerItem heap ptr malloc cItems cBytesPerItem h
     = malloc (cItems * cBytesPerItem) h).
Proof.
  intros H1 H2.
  pose proof (IsMultiplyError_exact cItems cBytesPerItem H1 H2) as E.
  unfold EbmMalloc_cItems_cBytesPerItem.
  destruct (IsMultiplyError cItems cBytesPerItem) eqn:Hm; split.
  - reflexivity.
  - intros Hn. exfalso. apply Hn, E. reflexivity.
  - intros Hy. apply E in Hy. discriminate.
  - intros _. rewrite wrap_size_small; [reflexivity|].
    unfold is_size_t in *. split; [nia|].
    destruct (Z_lt_le_dec SIZE_MAX (cItems * cBytesPerItem)) as [Hov|];
      [|assumption].
    rewrite (IsMultiplyError_sound cItems cBytesPerItem) in Hm;
      unfold is_size_t; trivial; discriminate.
Qed.

Lemma EbmMalloc_request_witness :
  EbmMalloc_cItems_cBytesPerItem (P := LP64) unit Z
    (fun cBytes h => (Some cBytes, h)) 1000 8 tt = (Some 8000, tt).
Proof.
  assert (H1 : @is_size_t LP64 1000)
    by (unfold is_size_t; vm_compute; split; discriminate).
  assert (H2 : @is_size_t LP64 8)
    by (unfold is_size_t; vm_compute; split; discriminate).
  apply (proj2 (EbmMalloc_request LP64 unit Z
                  (fun cBytes h => (Some cBytes, h)) 1000 8 tt H1 H2)).
  vm_compute. intros [_ H]. discriminate H.
Defined.

(** X7. The two forms of [EbmMalloc] compared.  For an item size other
    than 1 they are the same function.  For one byte items the one
    argument form passes every count to the allocator, while the two
    argument form returns null for every count above
    [2 ^ (size_bits - 1)] and agrees below. *)
Theorem EbmMalloc_forms_compared (P : Platform)
    (heap ptr : Type) (malloc : Z -> heap -> option ptr * heap)
    (cItems cBytesPerItem : Z) (h : heap) :
  is_size_t cItems -> is_size_t cBytesPerItem ->
  (cBytesPerItem <> 1 ->
   EbmMalloc_cItems heap ptr malloc cBytesPerItem cItems h =
   EbmMalloc_cItems_cBytesPerItem heap ptr malloc cItems cBytesPerItem h) /\
  EbmMalloc_cItems heap ptr malloc 1 cItems h = malloc cItems h /\
  (cItems <= 2 ^ (size_bits - 1) ->
   EbmMalloc_cItems_cBytesPerItem heap ptr malloc cItems 1 h
     = malloc cItems h) /\
  (2 ^ (size_bits - 1) < cItems ->
   EbmMalloc_cItems_cBytesPerItem heap ptr malloc cItems 1 h = (None, h)).
Proof.
  intros H1 H2. pose proof SIZE_MAX_large as HL.
  assert (Hone : is_size_t 1) by (unfold is_size_t; lia).
  assert (Hp : 2 ^ size_bits = 2 * 2 ^ (size_bits - 1)).
  { pose proof size_bits_pos.
    rewrite <- Z.pow_succ_r by lia. f_equal. lia. }
  pose proof (IsMultiplyError_exact cItems 1 H1 Hone) as E.
  split; [|split; [reflexivity|split]].
  - intros Hne. unfold EbmMalloc_cItems, EbmMalloc_cItems_cBytesPerItem.
    destruct (Z.eqb_spec 1 cBytesPerItem); [congruence | reflexivity].
  - intros Hle. unfold EbmMalloc_cItems_cBytesPerItem.
    destruct (IsMultiplyError cItems 1) eqn:Hm.
    + exfalso. destruct (proj1 E eq_refl) as [_ Hgt].
      unfold SIZE_MAX in Hgt. lia.
    + rewrite Z.mul_1_r, wrap_size_small by exact H1. reflexivity.
  - intros Hgt. unfold EbmMalloc_cItems_cBytesPerItem.
    rewrite (proj2 E); [reflexivity|].
    unfold SIZE_MAX. unfold is_size_t in H1. lia.
Qed.

Lemma EbmMalloc_forms_compared_witness :
  EbmMalloc_cItems (P := LP64) unit Z
    (fun cBytes h => (Some cBytes, h)) 1 9223372036854775809 tt
    = (Some 9223372036854775809, tt) /\
  EbmMalloc_cItems_cBytesPerItem (P := LP64) unit Z
    (fun cBytes h => (Some cBytes, h)) 9223372036854775809 1 tt
    = (None, tt).
Proof.
  assert (H1 : @is_size_t LP64 9223372036854775809)
    by (unfold is_size_t; vm_compute; split; discriminate).
  assert (H2 : @is_size_t LP64 1)
    by (unfold is_size_t; vm_compute; split; discriminate).
  destruct (EbmMalloc_forms_compared LP64 unit Z
              (fun cBytes h => (Some cBytes, h))
              9223372036854775809 1 tt H1 H2) as (_ & Ha & _ & Hb).
  split; [exact Ha|].
  apply Hb. vm_compute. reflexivity.
Defined.

(** ** Bit widths *)

Section CountBitsMore.
Context {P : Platform}.

(** Truncating division by two commutes with negation, and so does the
    count. *)
Lemma CountBitsRequired_opp maxValue :
  CountBitsRequired (- maxValue) = CountBitsRequired maxValue.
Proof.
  induction maxValue as [m IH]
    using (well_founded_induction halving_call_wf).
  rewrite (CountBitsRequired_step (- m)), (CountBitsRequired_step m).
  destruct (Z.eqb_spec 0 m) as [E|E].
  - subst. reflexivity.
  - destruct (Z.eqb_spec 0 (- m)) as [E'|_]; [lia|].
    rewrite Z.quot_opp_l by lia.
    rewrite IH; [reflexivity|]. split; [lia | reflexivity].
Qed.

Lemma CountBitsRequired_le a b :
  0 <= a <= b -> b < 2 ^ SIZE_MAX ->
  CountBitsRequired a <= CountBitsRequired b.
Proof.
  intros Hab Hb.
  assert (Hra : 0 <= a < 2 ^ SIZE_MAX) by lia.
  assert (Hrb : 0 <= b < 2 ^ SIZE_MAX) by lia.
  destruct (CountBitsRequired_bracket a Hra) as (Ha0 & _ & Halo).
  destruct (CountBitsRequired_bracket b Hrb) as (Hb0 & Hbup & _).
  destruct (Z.eq_dec a 0) as [->|Hne].
  - rewrite (CountBitsRequired_step 0). exact Hb0.
  - specialize (Halo ltac:(lia)).
    assert (CountBitsRequired a - 1 < CountBitsRequired b); [|lia].
    apply (Z.pow_lt_mono_r_iff 2); lia.
Qed.

End CountBitsMore.

(** X8. [CountBitsRequired] is monotone on the non-negative values, and
    on a [size_t] value it never exceeds [k_cBitsForSizeT]. *)
Theorem CountBitsRequired_monotone (P : Platform) (a b : Z) :
  0 <= a <= b -> b < 2 ^ SIZE_MAX ->
  CountBitsRequired a <= CountBitsRequired b /\
  (b <= SIZE_MAX -> CountBitsRequired b <= k_cBitsForSizeT).
Proof.
  intros Hab Hb. split; [now apply CountBitsRequired_le|].
  intros Hmax.
  unfold k_cBitsForSizeT, CountBitsRequiredPositiveMax_size_t.
  apply CountBitsRequired_le; [lia|].
  pose proof pow_size_bits_large as Hl. pose proof size_bits_lt_pow as Hlt.
  apply Z.lt_le_trans with (2 ^ size_bits); [unfold SIZE_MAX; lia|].
  apply Z.pow_le_mono_r; [lia | unfold SIZE_MAX; lia].
Qed.

Lemma CountBitsRequired_monotone_witness :
  @CountBitsRequired LP64 255 <= @CountBitsRequired LP64 256.
Proof.
  refine (proj1 (CountBitsRequired_monotone LP64 255 256 _ _)); [lia|].
  apply Z.lt_le_trans with (2 ^ 9); [reflexivity|].
  apply Z.pow_le_mono_r; [lia | vm_compute; discriminate].
Defined.

(** X9. At the powers of two: [2 ^ n - 1] needs [n] bits and [2 ^ n]
    needs [n + 1]. *)
Theorem CountBitsRequired_powers_of_two (P : Platform) (n : Z) :
  0 <= n < SIZE_MAX ->
  CountBitsRequired (2 ^ n - 1) = n /\ CountBitsRequired (2 ^ n) = n + 1.
Proof.
  intros Hn.
  assert (Hpos : 0 < 2 ^ n) by (apply Z.pow_pos_nonneg; lia).
  assert (Hlt : 2 ^ n < 2 ^ SIZE_MAX) by (apply Z.pow_lt_mono_r; lia).
  split.
  - destruct (Z.eq_dec n 0) as [->|Hne].
    + simpl. now rewrite CountBitsRequired_step.
    + assert (Hn1 : 1 < 2 ^ n).
      { apply Z.le_lt_trans with (2 ^ 0); [simpl; lia|].
        apply Z.pow_lt_mono_r; lia. }
      rewrite CountBitsRequired_log2 by lia.
      replace (2 ^ n - 1) with (Z.pred (2 ^ n)) by lia.
      rewrite Z.log2_pred_pow2 by lia. lia.
  - rewrite CountBitsRequired_log2 by lia.
    rewrite Z.log2_pow2 by lia. reflexivity.
Qed.

Lemma CountBitsRequired_powers_of_two_witness :
  @CountBitsRequired LP64 (2 ^ 8 - 1) = 8 /\
  @CountBitsRequired LP64 (2 ^ 8) = 8 + 1.
Proof.
  apply (CountBitsRequired_powers_of_two LP64 8).
  vm_compute. split; [discriminate | reflexivity].
Defined.

(** X10. On a signed type the division truncates towards zero, so a
    negative [maxValue] gets the bit count of its absolute value. *)
Theorem CountBitsRequired_negative (P : Platform) (maxValue : Z) :
  - 2 ^ SIZE_MAX < maxValue < 0 ->
  CountBitsRequired maxValue = CountBitsRequired (- maxValue) /\
  2 ^ (CountBitsRequired maxValue - 1) <= - maxValue
    < 2 ^ CountBitsRequired maxValue.
Proof.
  intros Hm.
  assert (E : CountBitsRequired maxValue = CountBitsRequired (- maxValue))
    by (symmetry; apply CountBitsRequired_opp).
  split; [exact E|]. rewrite E.
  assert (Hr : 0 <= - maxValue < 2 ^ SIZE_MAX) by lia.
  destruct (CountBitsRequired_bracket (- maxValue) Hr) as (_ & Hup & Hlo).
  split; [apply Hlo; lia | exact Hup].
Qed.

Lemma CountBitsRequired_negative_witness :
  @CountBitsRequired LP64 (-5) = @CountBitsRequired LP64 (- -5).
Proof.
  refine (proj1 (CountBitsRequired_negative LP64 (-5) _)).
  split; [|lia].
  assert (2 ^ 3 <= 2 ^ @SIZE_MAX LP64)
    by (apply Z.pow_le_mono_r; [lia | vm_compute; discriminate]).
  change (2 ^ 3) with 8 in *. lia.
Defined.

(** X11. The constants derived from the width of [size_t]: the bit
    counts of [size_t] and of the storage word are [size_bits], the
    maximal number of dimensions is one less, and the static assertions
    on them (lines 420-427) hold on every platform. *)
Theorem word_width_constants (P : Platform) :
  k_cBitsForSizeT = size_bits /\
  k_cBitsForStorageType = size_bits /\
  k_cDimensionsMax = size_bits - 1 /\
  k_cDimensionsMax < k_cBitsForSizeT /\
  1 <= k_cCompilerOptimizedCountDimensionsMax /\
  k_cCompilerOptimizedCountDimensionsMax <= k_cDimensionsMax.
Proof.
  pose proof size_bits_min as Hmin.
  destruct k_cDimensionsMax_value as [Hd Hlt].
  split; [exact k_cBitsForSizeT_value|].
  split; [exact k_cBitsForStorageType_value|].
  split; [exact Hd|]. split; [exact Hlt|].
  unfold k_cCompilerOptimizedCountDimensionsMax. rewrite Hd. lia.
Qed.

(** ** Bit-pack geometry *)

Section GeometryMore.
Context {P : Platform}.

Lemma GetCountBits_pos c :
  1 <= c <= k_cBitsForStorageType ->
  1 <= GetCountBits c <= k_cBitsForStorageType.
Proof.
  intros Hc. unfold GetCountBits. split.
  - apply Z.div_le_lower_bound; lia.
  - apply Z.div_le_upper_bound; nia.
Qed.

(** The value [GetCountBits (GetCountBits c)] keeps the bits per item of
    [c] and is on the progression. *)
Lemma GetCountBits_twice c :
  1 <= c <= k_cBitsForStorageType ->
  c <= GetCountBits (GetCountBits c) /\
  GetCountBits (GetCountBits (GetCountBits c)) = GetCountBits c /\
  In (GetCountBits (GetCountBits c)) BitPackProgression.
Proof.
  intros Hc. pose proof (GetCountBits_pos c Hc) as Hb.
  unfold GetCountBits in *.
  set (K := k_cBitsForStorageType) in *.
  set (b := K / c) in *.
  assert (Hcb : c <= K / b).
  { apply Z.div_le_lower_bound; [lia|].
    pose proof (Z.mul_div_le K c ltac:(lia)). fold b in H. lia. }
  split; [exact Hcb|]. split.
  - apply Z.le_antisymm.
    + assert (Hx : K / (K / b) <= K / c)
        by (apply Z.div_le_compat_l; lia).
      exact Hx.
    + apply Z.div_le_lower_bound; [lia|].
      pose proof (Z.mul_div_le K b ltac:(lia)). lia.
  - apply BitPackProgression_members. split; [lia|].
    exists b. split; [lia | reflexivity].
Qed.

Lemma GetNextBitPack_none :
  GetNextBitPack k_cItemsPerBitPackNone = k_cItemsPerBitPackNone.
Proof.
  pose proof k_cBitsForStorageType_bounds as HK.
  unfold GetNextBitPack, k_cItemsPerBitPackNone, k_cItemsPerBitPackMin2.
  simpl (1 =? -1).  cbv iota.
  set (K := k_cBitsForStorageType) in *.
  replace (-1) with (- (1)) by reflexivity.
  rewrite Z.quot_opp_r, Z.quot_1_r by lia.
  replace (- K + 1) with (- (K - 1)) by lia.
  rewrite Z.quot_opp_r by lia. f_equal.
  symmetry. apply Z.quot_unique with (r := 1); lia.
Qed.

End GeometryMore.

(** X12. The static assertions on the bounds of the progression (lines
    453-466) hold on every platform: the bounds 1 and the word width are
    ordered, both reproduce themselves under [W / (W / v)], both are
    members of the progression, and since they span it
    [k_cItemsPerBitPackLast] is 1, the case without a dynamic fallback. *)
Theorem bit_pack_bounds_on_progression (P : Platform) :
  k_cItemsPerBitPackMax2 <= k_cBitsForStorageType /\
  1 <= k_cItemsPerBitPackMin2 /\
  k_cItemsPerBitPackMin2 <= k_cItemsPerBitPackMax2 /\
  k_cItemsPerBitPackMin2 =
    Z.quot k_cBitsForStorageType
      (Z.quot k_cBitsForStorageType k_cItemsPerBitPackMin2) /\
  k_cItemsPerBitPackMax2 =
    Z.quot k_cBitsForStorageType
      (Z.quot k_cBitsForStorageType k_cItemsPerBitPackMax2) /\
  k_cItemsPerBitPackLast = 1 /\
  In k_cItemsPerBitPackMin2 BitPackProgression /\
  In k_cItemsPerBitPackMax2 BitPackProgression.
Proof.
  pose proof k_cBitsForStorageType_bounds as HK.
  destruct bit_pack_static_asserts as (H1 & H2 & H3 & H4 & H5 & H6).
  repeat (split; [assumption|]).
  split; apply BitPackProgression_members.
  - split; [reflexivity|]. exists k_cBitsForStorageType.
    split; [lia|]. unfold k_cItemsPerBitPackMin2.
    symmetry. apply Z.div_same. lia.
  - unfold k_cItemsPerBitPackMax2. split; [lia | apply width_is_quotient].
Qed.

(** X13. For any item count from 1 to the word width, on the progression
    or not: the bits per item are between 1 and the width, the items fit
    in the word, one more bit per item would not fit, and a larger count
    never gets more bits. *)
Theorem GetCountBits_capacity (P : Platform) (c1 c2 : Z) :
  1 <= c1 <= c2 -> c2 <= k_cBitsForStorageType ->
  1 <= GetCountBits c1 <= k_cBitsForStorageType /\
  GetCountBits c1 * c1 <= k_cBitsForStorageType /\
  k_cBitsForStorageType < (GetCountBits c1 + 1) * c1 /\
  GetCountBits c2 <= GetCountBits c1.
Proof.
  intros H12 H2.
  assert (Hc1 : 1 <= c1 <= k_cBitsForStorageType) by lia.
  split; [exact (GetCountBits_pos c1 Hc1)|].
  unfold GetCountBits.
  pose proof k_cBitsForStorageType_bounds as HK.
  split; [|split].
  - rewrite Z.mul_comm. apply Z.mul_div_le. lia.
  - pose proof (Z.mul_succ_div_gt k_cBitsForStorageType c1). lia.
  - apply Z.div_le_compat_l; lia.
Qed.

Lemma GetCountBits_capacity_witness :
  @GetCountBits LP64 21 <= @GetCountBits LP64 20.
Proof.
  refine (proj2 (proj2 (proj2 (GetCountBits_capacity LP64 20 21 _ _))));
    [lia | vm_compute; discriminate].
Defined.

(** X14. Normalisation of an item count.  For any count [c] from 1 to
    the word width, [GetCountBits (GetCountBits c)] is the least member
    of the progression that is at least [c], and it has the same bits
    per item as [c]. *)
Theorem GetCountBits_normalises (P : Platform) (c : Z) :
  1 <= c <= k_cBitsForStorageType ->
  In (GetCountBits (GetCountBits c)) BitPackProgression /\
  c <= GetCountBits (GetCountBits c) /\
  GetCountBits (GetCountBits (GetCountBits c)) = GetCountBits c /\
  (forall v, In v BitPackProgression -> c <= v ->
             GetCountBits (GetCountBits c) <= v).
Proof.
  intros Hc.
  destruct (GetCountBits_twice c Hc) as (Hle & Hsame & Hin).
  split; [exact Hin|]. split; [exact Hle|]. split; [exact Hsame|].
  intros v Hv Hcv.
  apply BitPackProgression_members in Hv as (Hpos & Hq).
  pose proof k_cBitsForStorageType_bounds as HK.
  assert (HK1 : 1 <= k_cBitsForStorageType) by lia.
  pose proof (quotient_le_width v Hq) as Hvw.
  rewrite <- (quotient_round_trip k_cBitsForStorageType HK1 v Hpos Hq).
  pose proof (GetCountBits_pos c Hc) as Hb.
  assert (Hv1 : 1 <= v <= k_cBitsForStorageType) by lia.
  pose proof (GetCountBits_pos v Hv1) as Hbv.
  unfold GetCountBits in *.
  apply Z.div_le_compat_l; [lia|]. split; [lia|].
  apply Z.div_le_compat_l; lia.
Qed.

Lemma GetCountBits_normalises_witness :
  @GetCountBits LP64 (@GetCountBits LP64 20) = 21 /\
  In (@GetCountBits LP64 (@GetCountBits LP64 20)) (@BitPackProgression LP64).
Proof.
  assert (Hc : 1 <= 20 <= @k_cBitsForStorageType LP64)
    by (vm_compute; split; discriminate).
  split; [vm_compute; reflexivity|].
  exact (proj1 (GetCountBits_normalises LP64 20 Hc)).
Defined.

(** X15. Each step of the progression gives every item strictly more
    bits: for a count from 2 to the word width the next count is at least
    1 and its bits per item exceed those of the count, and this for both
    step functions. *)
Theorem progression_step_gives_more_bits (P : Platform) (c : Z) :
  2 <= c <= k_cBitsForStorageType ->
  1 <= GetNextBitPack c < c /\
  GetCountBits c < GetCountBits (GetNextBitPack c) /\
  GetNextCountItemsBitPacked c = GetNextBitPack c.
Proof.
  intros Hc. pose proof k_cBitsForStorageType_bounds as HK.
  assert (Hc1 : 1 <= c <= k_cBitsForStorageType) by lia.
  assert (HK1 : 1 <= k_cBitsForStorageType) by lia.
  pose proof (next_lt k_cBitsForStorageType HK1 GetNextBitPack
                GetNextBitPack_formula c Hc1) as Hlt.
  rewrite (GetNextCountItemsBitPacked_formula c Hc1).
  rewrite (GetNextBitPack_formula c Hc1) in *.
  pose proof (GetCountBits_pos c Hc1) as Hb.
  unfold GetCountBits in *.
  set (K := k_cBitsForStorageType) in *.
  set (q := K / c) in *.
  assert (Hq : q + 1 <= K).
  { assert (q <= K / 2) by (apply Z.div_le_compat_l; lia).
    pose proof (Z.mul_div_le K 2 ltac:(lia)). lia. }
  assert (Hn : 1 <= K / (q + 1)) by (apply Z.div_le_lower_bound; lia).
  split; [lia|]. split; [|reflexivity].
  assert (q + 1 <= K / (K / (q + 1))); [|lia].
  apply Z.div_le_lower_bound; [lia|].
  pose proof (Z.mul_div_le K (q + 1) ltac:(lia)). lia.
Qed.

Lemma progression_step_gives_more_bits_witness :
  @GetCountBits LP64 5 < @GetCountBits LP64 (@GetNextBitPack LP64 5).
Proof.
  refine (proj1 (proj2 (progression_step_gives_more_bits LP64 5 _))).
  vm_compute. split; discriminate.
Defined.

(** X16. The sentinels.  After 1 both step functions return the dynamic
    sentinel 0, and [GetNextCountItemsBitPacked] stays on it.  The
    no-packing sentinel -1 is a fixed point of [GetNextBitPack]: a walk
    that starts there never reaches the dynamic sentinel, whatever the
    fuel. *)
Theorem GetNextBitPack_sentinels (P : Platform) :
  GetNextBitPack 1 = k_cItemsPerBitPackDynamic2 /\
  GetNextCountItemsBitPacked 1 = k_cItemsPerBitPackDynamic /\
  GetNextCountItemsBitPacked k_cItemsPerBitPackDynamic
    = k_cItemsPerBitPackDynamic /\
  GetNextBitPack k_cItemsPerBitPackNone = k_cItemsPerBitPackNone /\
  (forall fuel,
     BitPackChain GetNextBitPack fuel k_cItemsPerBitPackNone
     = repeat k_cItemsPerBitPackNone fuel).
Proof.
  destruct progression_ends_on_sentinel as [H1 H2].
  split; [exact H1|]. split; [exact H2|]. split; [reflexivity|].
  split; [exact GetNextBitPack_none|].
  induction fuel as [|fuel IH]; [reflexivity|].
  cbn [BitPackChain repeat].
  rewrite GetNextBitPack_none, IH. reflexivity.
Qed.

(** ** Task descriptors and compile-time selection *)

(** X17. On every [ptrdiff_t] descriptor the vector length is the
    descriptor clamped below at 1, except that the default policy maps 2
    to 1; hence it is never 0, the cast to [size_t] never wraps, and the
    two policies differ on the descriptor 2 only. *)
Theorem GetVectorLength_range (P : Platform) (b : bool) (d : Z) :
  is_ptrdiff_t d ->
  GetVectorLength true d = Z.max 1 d /\
  GetVectorLength false d = (if d =? 2 then 1 else Z.max 1 d) /\
  1 <= GetVectorLength b d <= PTRDIFF_MAX /\
  (d <> 2 -> GetVectorLength true d = GetVectorLength false d).
Proof.
  unfold is_ptrdiff_t, PTRDIFF_MIN, PTRDIFF_MAX. intros Hd.
  pose proof size_bits_min as Hmin.
  assert (Hp : 2 ^ size_bits = 2 * 2 ^ (size_bits - 1)).
  { rewrite <- Z.pow_succ_r by lia. f_equal. lia. }
  assert (Hh : 2 ^ 15 <= 2 ^ (size_bits - 1))
    by (apply Z.pow_le_mono_r; lia).
  change (2 ^ 15) with 32768 in Hh.
  assert (Hw : 0 <= d -> wrap_size d = d).
  { intros H0. apply wrap_size_small. unfold is_size_t, SIZE_MAX. lia. }
  unfold GetVectorLength.
  destruct b; destruct (Z.leb_spec d 1); destruct (Z.leb_spec d 2);
    destruct (Z.eqb_spec d 2); try lia; cbv iota;
    rewrite ?Hw by lia; repeat split; lia.
Qed.

Lemma GetVectorLength_range_witness :
  @GetVectorLength LP64 true (-1) = Z.max 1 (-1).
Proof.
  refine (proj1 (GetVectorLength_range LP64 true (-1) _)).
  unfold is_ptrdiff_t. vm_compute. split; discriminate.
Defined.

(** X18. The task predicates on every integer, in or out of the
    encoding: classification is the disjoint union of binary and
    multiclass, regression excludes classification, and the values on
    which neither regression nor classification holds are those below
    [k_regression]. *)
Theorem task_predicates_partition (EXPAND_BINARY_LOGITS : bool) (d : Z) :
  IsClassification d =
    IsBinaryClassification EXPAND_BINARY_LOGITS d ||
    IsMulticlass EXPAND_BINARY_LOGITS d /\
  IsBinaryClassification EXPAND_BINARY_LOGITS d &&
    IsMulticlass EXPAND_BINARY_LOGITS d = false /\
  IsRegression d && IsClassification d = false /\
  (IsRegression d = false /\ IsClassification d = false <->
   d < k_regression).
Proof.
  unfold IsMulticlass, IsBinaryClassification, IsClassification,
    IsRegression, k_regression.
  destruct EXPAND_BINARY_LOGITS;
    destruct (Z.eqb_spec (-1) d); destruct (Z.leb_spec 0 d);
    destruct (Z.eqb_spec 2 d); simpl; repeat split; intros;
    try reflexivity; try lia; try discriminate;
    match goal with H : _ /\ _ |- _ => destruct H; discriminate end.
Qed.



(** ** Minimum and maximum *)

(** X20. On integers [EbmMin] and [EbmMax] are the minimum and the
    maximum: each returns one of its arguments, they bracket both, and
    together they return both arguments. *)
Theorem EbmMin_EbmMax_correct (v1 v2 : Z) :
  EbmMin v1 v2 = Z.min v1 v2 /\
  EbmMax v1 v2 = Z.max v1 v2 /\
  EbmMin v1 v2 <= EbmMax v1 v2 /\
  EbmMin v1 v2 + EbmMax v1 v2 = v1 + v2 /\
  EbmMin v1 v2 = EbmMin v2 v1 /\
  EbmMax v1 v2 = EbmMax v2 v1.
Proof.
  unfold EbmMin, EbmMax.
  destruct (Z.ltb_spec v1 v2), (Z.ltb_spec v2 v1); repeat split; lia.
Qed.

(** ** Value-preserving conversions *)

Lemma IsNumberConvertable_in_rangeb (TTo TFrom : Conv.IntType) (number : Z) :
  Conv.in_range TFrom number ->
  Conv.IsNumberConvertable TTo TFrom number
    = Some (Conv.in_rangeb TTo number).
Proof.
  intros Hr.
  destruct TTo as [[] []], TFrom as [[] []];
    unfold Conv.in_range, Conv.lowest, Conv.max, Conv.bits in Hr;
    simpl in Hr;
    unfold Conv.IsNumberConvertable, Conv.le_op, Conv.and_op,
      Conv.convert, Conv.common_type, Conv.promote, Conv.in_rangeb,
      Conv.lowest, Conv.max, Conv.bits, Conv.int;
    simpl;
    repeat ConvFacts.conv_step;
    first [reflexivity | lia].
Qed.

(** X21. The check guards the cast: for a value of [TFrom] it answers
    true exactly when converting the value to [TTo] gives the same value
    back. *)
Theorem IsNumberConvertable_guards_cast
    (TTo TFrom : Conv.IntType) (number : Z) :
  Conv.in_range TFrom number ->
  (Conv.IsNumberConvertable TTo TFrom number = Some true <->
   Conv.convert TTo number = Some number).
Proof.
  intros Hr. rewrite (IsNumberConvertable_in_rangeb TTo TFrom number Hr).
  clear Hr.
  destruct TTo as [[] w]; unfold Conv.convert; cbn [Conv.is_signed].
  - destruct (Conv.in_rangeb _ number); split; congruence.
  - unfold Conv.in_rangeb, Conv.lowest, Conv.max; cbn [Conv.is_signed].
    assert (Hpos : 0 < 2 ^ Conv.bits {| Conv.is_signed := false;
                                         Conv.width := w |})
      by (destruct w; reflexivity).
    pose proof (Z.mod_pos_bound number _ Hpos) as Hb.
    destruct (Z.leb_spec 0 number) as [H0|H0];
      [destruct (Z.leb_spec number
                   (2 ^ Conv.bits {| Conv.is_signed := false;
                                     Conv.width := w |} - 1)) as [H1|H1]|];
      cbn [andb]; split; intros H; try discriminate.
    + rewrite Z.mod_small by lia. reflexivity.
    + reflexivity.
    + injection H as H. lia.
    + injection H as H. lia.
Qed.

Lemma IsNumberConvertable_guards_cast_witness :
  Conv.convert {| Conv.is_signed := false; Conv.width := Conv.W16 |} 65535
    = Some 65535.
Proof.
  refine (proj1 (IsNumberConvertable_guards_cast
                   {| Conv.is_signed := false; Conv.width := Conv.W16 |}
                   {| Conv.is_signed := true; Conv.width := Conv.W32 |}
                   65535 _) _).
  - unfold Conv.in_range. vm_compute. split; discriminate.
  - vm_compute. reflexivity.
Defined.

(** X22. A conversion to a type that holds every value of the source
    type never fails; in particular a conversion to the same type. *)
Theorem IsNumberConvertable_widening
    (TTo TFrom : Conv.IntType) (number : Z) :
  Conv.in_range TFrom number ->
  (Conv.lowest TTo <= Conv.lowest TFrom ->
   Conv.max TFrom <= Conv.max TTo ->
   Conv.IsNumberConvertable TTo TFrom number = Some true) /\
  Conv.IsNumberConvertable TFrom TFrom number = Some true.
Proof.
  intros Hr.
  assert (Hw : forall T, Conv.lowest T <= Conv.lowest TFrom ->
                 Conv.max TFrom <= Conv.max T ->
                 Conv.IsNumberConvertable T TFrom number = Some true).
  { intros T Hlo Hhi.
    rewrite (IsNumberConvertable_in_rangeb T TFrom number Hr).
    unfold Conv.in_range in Hr. unfold Conv.in_rangeb. f_equal.
    apply andb_true_iff. split; apply Z.leb_le; lia. }
  split; [apply Hw | apply Hw; lia].
Qed.

Lemma IsNumberConvertable_widening_witness :
  Conv.IsNumberConvertable
    {| Conv.is_signed := true; Conv.width := Conv.W64 |}
    {| Conv.is_signed := false; Conv.width := Conv.W32 |} 4294967295
  = Some true.
Proof.
  refine (proj1 (IsNumberConvertable_widening
                   {| Conv.is_signed := true; Conv.width := Conv.W64 |}
                   {| Conv.is_signed := false; Conv.width := Conv.W32 |}
                   4294967295 _) _ _).
  - unfold Conv.in_range. vm_compute. split; discriminate.
  - vm_compute. discriminate.
  - vm_compute. discriminate.
Defined.

(** ** The tokenizer *)

Section TokenizerMore.

Lemma SkipWhitespace_fixed s :
  is_whitespace (deref s) = false -> SkipWhitespace s = s.
Proof.
  destruct s as [|c s]; [reflexivity|].
  cbn [deref SkipWhitespace]. now intros ->.
Qed.

Lemma SkipWhitespace_head s : is_whitespace (deref (SkipWhitespace s)) = false.
Proof.
  destruct (SkipWhitespace_strips s) as (ws & _ & _ & Hd). exact Hd.
Qed.

Lemma SkipWhitespace_app ws s :
  all_whitespace ws -> SkipWhitespace (ws ++ s) = SkipWhitespace s.
Proof.
  induction 1 as [|c ws Hc Hall IH]; [reflexivity|].
  cbn [append SkipWhitespace]. now rewrite Hc.
Qed.

Lemma SkipWhitespace_length s :
  (String.length (SkipWhitespace s) <= String.length s)%nat.
Proof.
  induction s as [|c s IH]; cbn [SkipWhitespace]; [lia|].
  destruct (is_whitespace c); cbn [String.length]; lia.
Qed.

Lemma string_app_assoc (a b c : string) :
  ((a ++ b) ++ c)%string = (a ++ (b ++ c))%string.
Proof.
  induction a as [|x a IH]; cbn [append]; [reflexivity | now rewrite IH].
Qed.

Lemma string_length_app (a b : string) :
  String.length (a ++ b) = (String.length a + String.length b)%nat.
Proof.
  induction a as [|x a IH]; cbn [append String.length]; [reflexivity|].
  now rewrite IH.
Qed.

(** The label loop only moves forward in the main string. *)
Lemma label_loop_suffix sLabel : forall sMain r,
  label_loop sMain sLabel = Some r ->
  exists pre, sMain = (pre ++ r)%string.
Proof.
  induction sLabel as [|c l IH]; intros m r; cbn [label_loop].
  - intros [= ->]. now exists EmptyString.
  - destruct (0 =? char_code c); [intros [= ->]; now exists EmptyString|].
    destruct (Ascii.eqb _ _); [|discriminate].
    intros H. apply IH in H as (pre & Hpre).
    destruct m as [|a m'].
    + cbn [advance] in Hpre. now exists pre.
    + cbn [advance] in Hpre. exists (String a pre).
      cbn [append]. now rewrite <- Hpre.
Qed.

(** The label is read up to its first NUL. *)
Lemma label_loop_cut l1 l2 : forall sMain,
  label_loop sMain (l1 ++ String zero l2) = label_loop sMain l1.
Proof.
  induction l1 as [|c l IH]; intros m; cbn [append label_loop].
  - reflexivity.
  - destruct (0 =? char_code c); [reflexivity|].
    destruct (Ascii.eqb _ _); [apply IH | reflexivity].
Qed.

End TokenizerMore.

(** X23. [SkipWhitespace] returns the string without its leading
    whitespace: the skipped part is whitespace only and the result does
    not begin with whitespace.  It is idempotent, leaves a string that
    does not begin with whitespace as it is, stops at the terminating NUL
    of a string of whitespace, and never lengthens. *)
Theorem SkipWhitespace_correct (s : string) :
  strips_to s (SkipWhitespace s) /\
  SkipWhitespace (SkipWhitespace s) = SkipWhitespace s /\
  (is_whitespace (deref s) = false -> SkipWhitespace s = s) /\
  (forall ws, all_whitespace ws ->
     SkipWhitespace (ws ++ s) = SkipWhitespace s /\
     SkipWhitespace ws = EmptyString) /\
  (String.length (SkipWhitespace s) <= String.length s)%nat.
Proof.
  split; [apply SkipWhitespace_strips|].
  split; [apply SkipWhitespace_fixed, SkipWhitespace_head|].
  split; [apply SkipWhitespace_fixed|].
  split; [|apply SkipWhitespace_length].
  intros ws Hws. split; [now apply SkipWhitespace_app|].
  induction Hws as [|c ws Hc Hall IH]; [reflexivity|].
  cbn [SkipWhitespace]. now rewrite Hc.
Qed.

(** X24. A label that begins with whitespace matches no main string:
    the whitespace of the main string is skipped before the comparison
    and the label's is not. *)
Theorem label_with_leading_whitespace_never_matches
    (sMain : string) (c : ascii) (sLabel : string) :
  is_whitespace c = true ->
  IsStringEqualsCaseInsensitive sMain (String c sLabel) = None.
Proof.
  intros Hc. unfold IsStringEqualsCaseInsensitive.
  pose proof (SkipWhitespace_head sMain) as Hd.
  cbn [label_loop].
  destruct (Z.eqb_spec 0 (char_code c)) as [E|_].
  - exfalso. unfold is_whitespace in Hc. rewrite <- E in Hc.
    discriminate Hc.
  - destruct (Ascii.eqb_spec
                (lower_if_upper (deref (SkipWhitespace sMain)))
                (lower_if_upper c)) as [El|_]; [|reflexivity].
    apply lower_eq_same_letter, same_letter_whitespace in El.
    congruence.
Qed.

Lemma label_with_leading_whitespace_never_matches_witness :
  IsStringEqualsCaseInsensitive " rmse" " rmse" = None.
Proof.
  apply (label_with_leading_whitespace_never_matches " rmse" " " "rmse").
  reflexivity.
Defined.

(** X25. The empty label matches every main string, and the result is the
    main string without its leading whitespace; a label is read up to its
    first NUL only, what follows the NUL is ignored. *)
Theorem label_empty_or_cut_at_nul (sMain l1 l2 : string) :
  IsStringEqualsCaseInsensitive sMain EmptyString
    = Some (SkipWhitespace sMain) /\
  IsStringEqualsCaseInsensitive sMain (l1 ++ String zero l2)
    = IsStringEqualsCaseInsensitive sMain l1.
Proof.
  unfold IsStringEqualsCaseInsensitive. split.
  - cbn [label_loop].
    now rewrite (SkipWhitespace_fixed _ (SkipWhitespace_head sMain)).
  - now rewrite label_loop_cut.
Qed.

(** X26. Shape of a result.  A returned pointer points into the main
    string (it is a suffix of it) at a byte that is not whitespace, and
    skipping the leading whitespace of the main string beforehand does
    not change the result. *)
Theorem IsStringEqualsCaseInsensitive_result_shape
    (sMain sLabel p : string) :
  IsStringEqualsCaseInsensitive sMain sLabel = Some p ->
  (exists pre, sMain = (pre ++ p)%string) /\
  is_whitespace (deref p) = false /\
  (String.length p <= String.length sMain)%nat /\
  IsStringEqualsCaseInsensitive (SkipWhitespace sMain) sLabel = Some p.
Proof.
  intros H.
  assert (Hidem : IsStringEqualsCaseInsensitive (SkipWhitespace sMain) sLabel
                  = IsStringEqualsCaseInsensitive sMain sLabel).
  { unfold IsStringEqualsCaseInsensitive.
    now rewrite (SkipWhitespace_fixed _ (SkipWhitespace_head sMain)). }
  rewrite Hidem. clear Hidem.
  unfold IsStringEqualsCaseInsensitive in *.
  destruct (label_loop (SkipWhitespace sMain) sLabel) as [r|] eqn:E;
    [|discriminate].
  injection H as <-.
  destruct (label_loop_suffix _ _ _ E) as (pre2 & Hbody).
  destruct (SkipWhitespace_strips sMain) as (ws1 & Hm & _ & _).
  destruct (SkipWhitespace_strips r) as (ws3 & Hr & _ & Hd).
  assert (Hsuf : sMain = ((ws1 ++ pre2 ++ ws3) ++ SkipWhitespace r)%string).
  { rewrite !string_app_assoc. rewrite <- Hr, <- Hbody. exact Hm. }
  split; [eexists; exact Hsuf|]. split; [exact Hd|]. split; [|reflexivity].
  rewrite Hsuf at 1. rewrite string_length_app. lia.
Qed.

Lemma IsStringEqualsCaseInsensitive_result_shape_witness :
  is_whitespace (deref ":x"%string) = false /\
  IsStringEqualsCaseInsensitive (SkipWhitespace "  rmse  :x") "RMSE"
    = Some ":x"%string.
Proof.
  destruct (IsStringEqualsCaseInsensitive_result_shape
              "  rmse  :x" "RMSE" ":x" eq_refl) as (_ & Hd & _ & Hs).
  split; [exact Hd | exact Hs].
Defined.

(** X27. The match is a prefix match: after any leading whitespace, a
    text that begins with the label matches whatever follows the label,
    and the result is what follows, without its leading whitespace.  A
    caller that wants the whole text to be the label has to look at the
    returned pointer. *)
Theorem IsStringEqualsCaseInsensitive_accepts_longer_text
    (ws sLabel rest : string) :
  no_nul sLabel -> is_whitespace (deref sLabel) = false ->
  all_whitespace ws ->
  IsStringEqualsCaseInsensitive (ws ++ sLabel ++ rest) sLabel
    = Some (SkipWhitespace rest).
Proof.
  intros Hl Hd Hws. unfold IsStringEqualsCaseInsensitive.
  rewrite (SkipWhitespace_app ws _ Hws).
  destruct sLabel as [|c l].
  - cbn [append label_loop].
    now rewrite (SkipWhitespace_fixed _ (SkipWhitespace_head rest)).
  - rewrite SkipWhitespace_fixed by exact Hd.
    assert (E : label_loop (String c l ++ rest) (String c l) = Some rest).
    { apply (label_loop_exact _ Hl). exists (String c l).
      split; [reflexivity | apply eq_ci_refl]. }
    now rewrite E.
Qed.

Lemma IsStringEqualsCaseInsensitive_accepts_longer_text_witness :
  IsStringEqualsCaseInsensitive " log_lossy" "log_loss" = Some "y"%string.
Proof.
  apply (IsStringEqualsCaseInsensitive_accepts_longer_text " " "log_loss" "y").
  - repeat constructor; vm_compute; discriminate.
  - reflexivity.
  - repeat constructor.
Defined.

(** ** Progressions of different word widths *)

(** X28. When the word width of one platform is a multiple of that of
    another, the progression of the narrower word is included in that of
    the wider one (as the source notes for 32 and 64 bits). *)
Theorem progression_included (P1 P2 : Platform) (m v : Z) :
  1 <= m -> @size_bits P2 = m * @size_bits P1 ->
  In v (@BitPackProgression P1) -> In v (@BitPackProgression P2).
Proof.
  intros Hm Hbits Hin.
  apply (@BitPackProgression_members P1) in Hin as (Hpos & k & Hk & Hv).
  apply (@BitPackProgression_members P2). split; [exact Hpos|].
  exists (m * k). split; [nia|].
  rewrite Hv, (@k_cBitsForStorageType_value P1),
    (@k_cBitsForStorageType_value P2), Hbits.
  symmetry. apply Z.div_mul_cancel_l; lia.
Qed.

Lemma progression_included_witness :
  In 10 (@BitPackProgression LP64).
Proof.
  apply (progression_included ILP32 LP64 2 10).
  - lia.
  - reflexivity.
  - vm_compute. tauto.
Defined.
